(** * foonathan/array: [block_storage_heap]

    A shallow embedding of [include/foonathan/array/block_storage_heap.hpp]:
    the heap backed block storage that owns one memory block and one allocator
    handle, and that grows or shrinks the block by allocating a new one,
    relocating the constructed elements and releasing the old one.

    The class is a template over a [Heap] and a [GrowthPolicy]; both are type
    classes here, and the element type of the member templates is a third one.
    Member functions are computations in a state and exception monad whose
    state holds the object itself and the part of the world it acts on. *)

From stdpp Require Import gmap list.

Local Open Scope N_scope.

(** ** Values *)

(** [size_type] is [std::size_t], taken as 64 bits wide. *)
Definition size_modulus : N := 2 ^ 64.

(** [a * b] on [size_type]. *)
Definition size_mul (a b : N) : N := (a * b) mod size_modulus.

(** The conditions of the error taxonomy.  The payload of a transfer failure
    tells two errors of the element type apart. *)
Inductive exception : Type :=
| CapacityExceeded
| AllocationFailure
| ElementTransferFailure (code : N).

#[global] Instance exception_eq_dec : EqDecision exception.
Proof. solve_decision. Defined.

(** Modelled from the spec: [memory_block] (declared in [block_storage.hpp],
    which is not part of the sources at hand): a start address and a size in
    bytes, the null address standing for no storage. *)
Record memory_block : Type := { mb_begin : N; mb_size : N }.

#[global] Instance memory_block_eq_dec : EqDecision memory_block.
Proof. solve_decision. Defined.

(** Modelled from the spec: the default constructed [memory_block{}], the
    canonical empty block. *)
Definition empty_block : memory_block := {| mb_begin := 0; mb_size := 0 |}.

(** Modelled from the spec: [memory_block::empty()]. *)
Definition mb_empty (b : memory_block) : bool := mb_size b =? 0.

(** Modelled from the spec: [block_view<T>] (declared in [block_view.hpp]):
    the base address and the number of constructed elements. *)
Record block_view : Type := { base : N; count : N }.

(** ** The template parameters *)

(** The [Heap]: a handle type and the static functions on it.  The allocator's
    own state is threaded explicitly.  [Heap::allocate] returns a block or
    raises; [Heap::deallocate] is called from [noexcept] functions only and
    cannot raise. *)
Class Heap : Type := {
  handle_type : Type;
  handle_eq_dec :: EqDecision handle_type;
  heap_state : Type;
  Heap_allocate :
    handle_type → N → N → heap_state → (exception + memory_block) * heap_state;
  Heap_deallocate : handle_type → memory_block → heap_state → heap_state;
  Heap_max_size : handle_type → heap_state → N
}.

(** The [GrowthPolicy]: two static functions; [growth_size] may raise. *)
Class GrowthPolicy : Type := {
  growth_size : N → N → N → exception + N;
  shrink_size : N → N → N
}.

(** The element type [T] of the member templates: [sizeof(T)], [alignof(T)]
    and its move constructor, which either raises or makes an object that
    holds the value of its source. *)
Class Element (T : Type) : Type := {
  sizeof : N;
  alignof : N;
  move_error : T → option exception;
  sizeof_pos : 0 < sizeof
}.

(** ** Computations *)

(** The result of running a computation from a state: it returns, it raises
    and leaves a state behind, or its behaviour is undefined. *)
Inductive result (Σ A : Type) : Type :=
| Returns (a : A) (σ : Σ)
| Throws (e : exception) (σ : Σ)
| Undefined.
Arguments Returns {Σ A} a σ.
Arguments Throws {Σ A} e σ.
Arguments Undefined {Σ A}.

Definition M (Σ A : Type) : Type := Σ → result Σ A.

#[global] Instance M_ret {Σ} : MRet (M Σ) := λ A a σ, Returns a σ.

#[global] Instance M_bind {Σ} : MBind (M Σ) := λ A B k c σ,
  match c σ with
  | Returns a σ' => k a σ'
  | Throws e σ' => Throws e σ'
  | Undefined => Undefined
  end.

Definition throw {Σ A} (e : exception) : M Σ A := λ σ, Throws e σ.

(** [try { c } catch (...) { handler }], the handler being given the
    exception in flight so that [throw;] can raise it again. *)
Definition try_catch {Σ A} (c : M Σ A) (handler : exception → M Σ A) : M Σ A :=
  λ σ, match c σ with
       | Throws e σ' => handler e σ'
       | r => r
       end.

Definition gets {Σ A} (f : Σ → A) : M Σ A := λ σ, Returns (f σ) σ.
Definition modify {Σ} (f : Σ → Σ) : M Σ unit := λ σ, Returns tt (f σ).

(** A value or a raised exception, as a computation. *)
Definition lift_sum {Σ A} (r : exception + A) : M Σ A :=
  match r with inl e => throw e | inr a => mret a end.

(** Runs a computation on a component of the state. *)
Definition zoom {Σ Σ' A} (get : Σ → Σ') (set : Σ' → Σ → Σ) (c : M Σ' A) : M Σ A :=
  λ σ, match c (get σ) with
       | Returns a s => Returns a (set s σ)
       | Throws e s => Throws e (set s σ)
       | Undefined => Undefined
       end.

(** The state a computation leaves behind, when it has a defined one. *)
Definition final_state {Σ A} (r : result Σ A) : option Σ :=
  match r with
  | Returns _ σ | Throws _ σ => Some σ
  | Undefined => None
  end.

(** Removes the first occurrence of [x]. *)
Fixpoint remove_one {A} `{EqDecision A} (x : A) (l : list A) : list A :=
  match l with
  | [] => []
  | y :: l' => if decide (x = y) then l' else y :: remove_one x l'
  end.

Section block_storage_heap.
Context {H : Heap} {G : GrowthPolicy} {T : Type} {E : Element T}.

(** ** State *)

(** The object: the base [argument_storage<handle_type>] and [block_]. *)
Record block_storage_heap : Type := {
  stored_argument : handle_type;
  block_ : memory_block
}.

(** The calls of [Heap::allocate] and [Heap::deallocate] the storage makes,
    in order, each allocation with what it gave. *)
Inductive heap_call : Type :=
| CallAllocate (h : handle_type) (size alignment : N)
               (r : exception + memory_block)
| CallDeallocate (h : handle_type) (b : memory_block).

(** What the storage acts on: the allocator's state, the log of the calls
    made on it, and the constructed objects of type [T] by address. *)
Record world : Type := {
  heap : heap_state;
  calls : list heap_call;
  objects : gmap N T
}.

Record state : Type := { this : block_storage_heap; env : world }.

Definition set_env (w : world) (σ : state) : state :=
  {| this := this σ; env := w |}.
Definition set_objects (m : gmap N T) (w : world) : world :=
  {| heap := heap w; calls := calls w; objects := m |}.
Definition set_block (b : memory_block) (σ : state) : state :=
  {| this := {| stored_argument := stored_argument (this σ); block_ := b |};
     env := env σ |}.

(** ** Calls on the Heap *)

Definition call_allocate (h : handle_type) (size alignment : N)
  : M world memory_block := λ w,
  let '(r, hs) := Heap_allocate h size alignment (heap w) in
  let w' := {| heap := hs;
               calls := calls w ++ [CallAllocate h size alignment r];
               objects := objects w |} in
  match r with
  | inl e => Throws e w'
  | inr b => Returns b w'
  end.

Definition call_deallocate (h : handle_type) (b : memory_block)
  : M world unit := λ w,
  Returns tt {| heap := Heap_deallocate h b (heap w);
                calls := calls w ++ [CallDeallocate h b];
                objects := objects w |}.

Definition call_max_size (h : handle_type) : M world N :=
  gets (λ w, Heap_max_size h (heap w)).

(** ** The transfer algorithm *)

(** The address of element [i] of a run of [T] that starts at [p]. *)
Definition element_at (p i : N) : N := p + i * sizeof.

(** Destroys the elements [0 .. n-1] of the run at [p]. *)
Fixpoint destroy_range (p : N) (n : nat) (m : gmap N T) : gmap N T :=
  match n with
  | O => m
  | S k => delete (element_at p (N.of_nat k)) (destroy_range p k m)
  end.

(** The loop of the transfer, at index [i] with [remaining] elements to go:
    move-construct [target[i]] from [source[i]], then destroy [source[i]].
    When the move constructor raises at [i], the elements [0 .. i-1] of the
    target are destroyed and the error is passed on.  Reading an element
    that is not alive is undefined. *)
Fixpoint transfer_loop (remaining : nat) (i src dst : N) : M (gmap N T) unit :=
  match remaining with
  | O => mret tt
  | S k => λ m,
      match m !! element_at src i with
      | None => Undefined
      | Some v =>
          match move_error v with
          | Some e => Throws e (destroy_range dst (N.to_nat i) m)
          | None =>
              transfer_loop k (i + 1) src dst
                (delete (element_at src i) (<[element_at dst i := v]> m))
          end
      end
  end.

(** Modelled from the spec: [uninitialized_destructive_move(begin, end,
    block)] (declared in a header that is not part of the sources at hand),
    the transfer algorithm.  The target must have room for the elements. *)
Definition uninitialized_destructive_move (constructed : block_view)
    (block : memory_block) : M (gmap N T) unit := λ m,
  if mb_size block <? count constructed * sizeof then Undefined
  else transfer_loop (N.to_nat (count constructed)) 0
                     (base constructed) (mb_begin block) m.

(** ** Member functions *)

Definition on_env {A} (c : M world A) : M state A := zoom env set_env c.
Definition on_objects {A} (c : M (gmap N T) A) : M state A :=
  on_env (zoom objects set_objects c).

(** [block_storage_heap(arg)]: the argument is stored and [block_] is
    default constructed. *)
Definition construct (arg : handle_type) : M world block_storage_heap :=
  mret {| stored_argument := arg; block_ := empty_block |}.

(** [block()] and [argument()]. *)
Definition block : M state memory_block := gets (λ σ, block_ (this σ)).
Definition argument : M state handle_type :=
  gets (λ σ, stored_argument (this σ)).

(** [max_size(handle)]. *)
Definition max_size (handle : handle_type) : M state N :=
  on_env (call_max_size handle).

(** [deallocate_block(block)]. *)
Definition deallocate_block (block : memory_block) : M state unit :=
  handle ← gets (λ σ, stored_argument (this σ));
  if negb (mb_empty block)
  then on_env (call_deallocate handle block)
  else mret tt.

(** [allocate_block(size, alignment)]. *)
Definition allocate_block (size alignment : N) : M state memory_block :=
  if size =? 0 then mret empty_block
  else
    handle ← gets (λ σ, stored_argument (this σ));
    on_env (call_allocate handle size alignment).

(** [change_block(constructed, new_block)]. *)
Definition change_block (constructed : block_view) (new_block : memory_block)
  : M state unit :=
  try_catch
    (on_objects (uninitialized_destructive_move constructed new_block))
    (λ e, deallocate_block new_block;; throw e);;
  old ← gets (λ σ, block_ (this σ));
  deallocate_block old;;
  modify (set_block new_block).

(** [reserve(min_additional_bytes, constructed)]. *)
Definition reserve (min_additional_bytes : N) (constructed : block_view)
  : M state unit :=
  old_size ← gets (λ σ, mb_size (block_ (this σ)));
  handle ← argument;
  max ← max_size handle;
  new_size ← lift_sum (growth_size old_size min_additional_bytes max);
  new_block ← allocate_block new_size alignof;
  change_block constructed new_block.

(** [shrink_to_fit(constructed)]. *)
Definition shrink_to_fit (constructed : block_view) : M state unit :=
  let byte_size := size_mul (count constructed) sizeof in
  old_size ← gets (λ σ, mb_size (block_ (this σ)));
  let new_size := shrink_size old_size byte_size in
  new_block ← allocate_block new_size alignof;
  change_block constructed new_block.

(** [~block_storage_heap()]. *)
Definition destroy : M state unit :=
  b ← gets (λ σ, block_ (this σ));
  deallocate_block b.

(** The operands of the static [swap]: two objects and two views, by
    reference. *)
Record swap_state : Type := {
  lhs : block_storage_heap;
  lhs_constructed : block_view;
  rhs : block_storage_heap;
  rhs_constructed : block_view;
  swap_env : world
}.

(** Modelled from the spec: [argument_storage::swap_argument] (declared in
    [block_storage.hpp]) exchanges the two stored arguments. *)
Definition swap_argument : M swap_state unit := modify (λ s,
  {| lhs := {| stored_argument := stored_argument (rhs s);
               block_ := block_ (lhs s) |};
     lhs_constructed := lhs_constructed s;
     rhs := {| stored_argument := stored_argument (lhs s);
               block_ := block_ (rhs s) |};
     rhs_constructed := rhs_constructed s;
     swap_env := swap_env s |}).

(** [std::swap(lhs.block_, rhs.block_)]. *)
Definition swap_block_ : M swap_state unit := modify (λ s,
  {| lhs := {| stored_argument := stored_argument (lhs s);
               block_ := block_ (rhs s) |};
     lhs_constructed := lhs_constructed s;
     rhs := {| stored_argument := stored_argument (rhs s);
               block_ := block_ (lhs s) |};
     rhs_constructed := rhs_constructed s;
     swap_env := swap_env s |}).

(** [std::swap(lhs_constructed, rhs_constructed)]. *)
Definition swap_constructed : M swap_state unit := modify (λ s,
  {| lhs := lhs s;
     lhs_constructed := rhs_constructed s;
     rhs := rhs s;
     rhs_constructed := lhs_constructed s;
     swap_env := swap_env s |}).

(** [swap(lhs, lhs_constructed, rhs, rhs_constructed)]. *)
Definition swap : M swap_state unit :=
  swap_argument;; swap_block_;; swap_constructed.

(** ** Vocabulary of the specification *)

(** The target of a resize is computed, and then the same steps are taken
    by [reserve] and [shrink_to_fit]: allocate, relocate, deallocate, adopt. *)
Definition resize_to (target : N) (constructed : block_view) : M state unit :=
  new_block ← allocate_block target alignof;
  change_block constructed new_block.

(** What [deallocate_block] leaves of the world. *)
Definition released (h : handle_type) (b : memory_block) (w : world) : world :=
  if mb_empty b then w
  else {| heap := Heap_deallocate h b (heap w);
          calls := calls w ++ [CallDeallocate h b];
          objects := objects w |}.

(** The blocks handed out by the Heap and not given back yet, read off the
    log of calls, each with the handle it was obtained through. *)
Definition record_call (live : list (handle_type * memory_block))
    (c : heap_call) : list (handle_type * memory_block) :=
  match c with
  | CallAllocate h _ _ (inr b) => (h, b) :: live
  | CallAllocate _ _ _ (inl _) => live
  | CallDeallocate h b => remove_one (h, b) live
  end.

Definition outstanding (log : list heap_call)
  : list (handle_type * memory_block) :=
  fold_left record_call log [].

(** The ownership invariant of an object against a log of Heap calls. *)
Definition owns (obj : block_storage_heap) (log : list heap_call) : Prop :=
  mb_empty (block_ obj) = false →
  (stored_argument obj, block_ obj) ∈ outstanding log.

(** A call the storage may make: no allocation of zero bytes, no release of
    an empty block. *)
Definition call_ok (c : heap_call) : bool :=
  match c with
  | CallAllocate _ size _ _ => negb (size =? 0)
  | CallDeallocate _ b => negb (mb_empty b)
  end.

(** A log grown by well formed calls only. *)
Definition extends_ok (log log' : list heap_call) : Prop :=
  ∃ new, log' = log ++ new ∧ forallb call_ok new = true.

(** The contracts of the template parameters. *)
Definition growth_size_contract : Prop :=
  ∀ old additional max n,
    growth_size old additional max = inr n → old + additional ≤ n ∧ n ≤ max.

Definition allocate_contract : Prop :=
  ∀ h size alignment hs b hs',
    Heap_allocate h size alignment hs = (inr b, hs') → size ≤ mb_size b.

Definition allocate_exact : Prop :=
  ∀ h size alignment hs b hs',
    Heap_allocate h size alignment hs = (inr b, hs') → mb_size b = size.

Definition shrink_size_stable : Prop :=
  ∀ old live, shrink_size (shrink_size old live) live = shrink_size old live.

Definition blocks_disjoint (a b : memory_block) : Prop :=
  mb_begin a + mb_size a ≤ mb_begin b ∨ mb_begin b + mb_size b ≤ mb_begin a.

(** The Heap, asked from this state, hands out storage apart from the block
    the object still holds. *)
Definition allocates_fresh (σ : state) : Prop :=
  ∀ size alignment b hs',
    Heap_allocate (stored_argument (this σ)) size alignment (heap (env σ))
      = (inr b, hs') →
    blocks_disjoint b (block_ (this σ)).

(** The invariant of a view: it lies in the block. *)
Definition view_in_block (v : block_view) (b : memory_block) : Prop :=
  mb_begin b ≤ base v ∧ base v + count v * sizeof ≤ mb_begin b + mb_size b.

(** The elements a view describes, in order, as found among the objects. *)
Definition read_view (v : block_view) (m : gmap N T) : list (option T) :=
  (λ i, m !! element_at (base v) (N.of_nat i)) <$> seq 0 (N.to_nat (count v)).

(** The view of the same number of elements at the start of a block. *)
Definition view_at (b : memory_block) (v : block_view) : block_view :=
  {| base := mb_begin b; count := count v |}.

(** ** Executions *)

(** The calls a client can make, on any objects. *)
Inductive operation : Type :=
| OpConstruct (arg : handle_type)
| OpReserve (obj : block_storage_heap) (min_additional_bytes : N)
            (constructed : block_view)
| OpShrinkToFit (obj : block_storage_heap) (constructed : block_view)
| OpSwap (a : block_storage_heap) (av : block_view)
         (b : block_storage_heap) (bv : block_view)
| OpDestroy (obj : block_storage_heap).

(** The world after one call, when the call has defined behaviour. *)
Definition run_operation (o : operation) (w : world) : option world :=
  match o with
  | OpConstruct arg => final_state (construct arg w)
  | OpReserve obj n v =>
      env <$> final_state (reserve n v {| this := obj; env := w |})
  | OpShrinkToFit obj v =>
      env <$> final_state (shrink_to_fit v {| this := obj; env := w |})
  | OpSwap a av b bv =>
      swap_env <$> final_state (swap {| lhs := a; lhs_constructed := av;
                                        rhs := b; rhs_constructed := bv;
                                        swap_env := w |})
  | OpDestroy obj => env <$> final_state (destroy {| this := obj; env := w |})
  end.

Fixpoint run_operations (os : list operation) (w : world) : option world :=
  match os with
  | [] => Some w
  | o :: os' =>
      match run_operation o w with
      | Some w' => run_operations os' w'
      | None => None
      end
  end.

(** ** Lifetimes *)

(** A call that resizes the block of one object. *)
Inductive resize_request : Type :=
| Reserve (min_additional_bytes : N) (constructed : block_view)
| ShrinkToFit (constructed : block_view).

Definition resize (r : resize_request) : M state unit :=
  match r with
  | Reserve n v => reserve n v
  | ShrinkToFit v => shrink_to_fit v
  end.

(** Calls on one object, one after the other, by a caller that catches what
    they raise and goes on. *)
Fixpoint run_resizes (rs : list resize_request) (σ : state) : option state :=
  match rs with
  | [] => Some σ
  | r :: rs' =>
      match final_state (resize r σ) with
      | Some σ' => run_resizes rs' σ'
      | None => None
      end
  end.

(** Calls of [reserve] in a row; the first error ends them. *)
Fixpoint reserve_all (rs : list (N * block_view)) : M state unit :=
  match rs with
  | [] => mret tt
  | r :: rs' => reserve r.1 r.2;; reserve_all rs'
  end.

(** The bytes asked for by a list of [reserve] calls. *)
Definition requested (rs : list (N * block_view)) : N :=
  foldr (λ r total, r.1 + total) 0 rs.

(** What an object holds of the Heap: its block, unless empty. *)
Definition held (obj : block_storage_heap)
  : list (handle_type * memory_block) :=
  if mb_empty (block_ obj) then [] else [(stored_argument obj, block_ obj)].

(** A log in which every deallocation, read from blocks [live] on, is of a
    block that is outstanding when it is made. *)
Fixpoint sound_from (live : list (handle_type * memory_block))
    (log : list heap_call) : bool :=
  match log with
  | [] => true
  | c :: log' =>
      match c with
      | CallDeallocate h b => bool_decide ((h, b) ∈ live)
      | CallAllocate _ _ _ _ => true
      end && sound_from (record_call live c) log'
  end.

Definition log_sound (log : list heap_call) : bool := sound_from [] log.

(** The handle a call is made through. *)
Definition call_handle (c : heap_call) : handle_type :=
  match c with
  | CallAllocate h _ _ _ | CallDeallocate h _ => h
  end.

(** An allocation asks for [size] bytes between two bounds, aligned for the
    element type. *)
Definition allocation_within (low high : N) (c : heap_call) : Prop :=
  match c with
  | CallAllocate _ size alignment _ =>
      low ≤ size ∧ size ≤ high ∧ alignment = alignof
  | CallDeallocate _ _ => True
  end.

Definition shrink_size_contract : Prop :=
  ∀ old live, live ≤ shrink_size old live.

End block_storage_heap.

(** ** Instances used in the examples *)

(** A bump allocator that hands out block sizes in multiples of [granule],
    and that can be set to fail: [failing_in = Some n] lets [n] allocations
    through and fails the next one. *)
Record bump_state : Type := { next_address : N; failing_in : option nat }.

Definition round_up (granule n : N) : N :=
  ((n + granule - 1) / granule) * granule.

Definition bump_allocate (granule : N) (h size alignment : N) (s : bump_state)
  : (exception + memory_block) * bump_state :=
  match failing_in s with
  | Some O => (inl AllocationFailure,
               {| next_address := next_address s; failing_in := None |})
  | countdown =>
      let start := round_up (N.max 1 alignment) (next_address s) in
      let size' := round_up granule size in
      (inr {| mb_begin := start; mb_size := size' |},
       {| next_address := start + size'; failing_in := pred <$> countdown |})
  end.

Definition bump_heap (granule : N) : Heap :=
  {| handle_type := N;
     heap_state := bump_state;
     Heap_allocate := bump_allocate granule;
     Heap_deallocate := λ _ _ s, s;
     Heap_max_size := λ _ _, 2 ^ 20 |}.

(** Doubling growth, clamped to the request and the ceiling; tight shrink. *)
Definition doubling_growth_size (old additional max : N) : exception + N :=
  if max <? old + additional then inl CapacityExceeded
  else inr (N.min max (N.max (old + additional) (2 * old))).

Definition doubling : GrowthPolicy :=
  {| growth_size := doubling_growth_size; shrink_size := λ _ live, live |}.

(** The same growth, and a shrink that gives back at most half of the block
    at a time. *)
Definition halving : GrowthPolicy :=
  {| growth_size := doubling_growth_size;
     shrink_size := λ old live, N.max live (old / 2) |}.

(** Elements of eight bytes whose move constructor raises on one value. *)
Definition poisoned : N := 13.

Definition word : Element N :=
  {| sizeof := 8; alignof := 8;
     move_error := λ v, if v =? poisoned
                        then Some (ElementTransferFailure v) else None;
     sizeof_pos := eq_refl |}.

(** ** The states of the examples *)

(** States over the bump allocator, with elements of type [N]. *)
Definition bump_call_allocate (granule h size alignment : N)
    (b : memory_block) : @heap_call (bump_heap granule) :=
  @CallAllocate (bump_heap granule) h size alignment (inr b).

Definition bump_call_deallocate (granule h : N) (b : memory_block)
  : @heap_call (bump_heap granule) :=
  @CallDeallocate (bump_heap granule) h b.

Definition bump_object (granule h : N) (b : memory_block)
  : @block_storage_heap (bump_heap granule) :=
  @Build_block_storage_heap (bump_heap granule) h b.

Definition bump_world (granule next : N) (failing : option nat)
    (log : list (@heap_call (bump_heap granule))) (m : gmap N N)
  : @world (bump_heap granule) N :=
  @Build_world (bump_heap granule) N
    {| next_address := next; failing_in := failing |} log m.

(** A block of 64 bytes at address 4096, obtained through handle 7, that
    holds three elements; the allocator has handed out nothing else. *)
Definition example_block : memory_block :=
  {| mb_begin := 4096; mb_size := 64 |}.

Definition example_view : block_view := {| base := 4096; count := 3 |}.

Definition example_state (granule : N) (failing : option nat) (second : N)
  : @state (bump_heap granule) N :=
  {| this := bump_object granule 7 example_block;
     env := bump_world granule 4160 failing
              [bump_call_allocate granule 7 64 8 example_block]
              (<[4096 := 10]> (<[4104 := second]> (<[4112 := 30]> ∅))) |}.

(** The example after [reserve(1000, example_view)], with the doubling
    policy and an allocator of the given granule, and then after
    [shrink_to_fit] of the three elements at their new place. *)
Definition example_reserved (granule : N) : @state (bump_heap granule) N :=
  let size := round_up granule 1064 in
  let new_block := {| mb_begin := 4160; mb_size := size |} in
  {| this := bump_object granule 7 new_block;
     env := bump_world granule (4160 + size) None
              [bump_call_allocate granule 7 64 8 example_block;
               bump_call_allocate granule 7 1064 8 new_block;
               bump_call_deallocate granule 7 example_block]
              (<[4160 := 10]> (<[4168 := 20]> (<[4176 := 30]> ∅))) |}.

Definition example_shrunk (granule : N) : @state (bump_heap granule) N :=
  let size := round_up granule 1064 in
  let old_block := {| mb_begin := 4160; mb_size := size |} in
  let new_block := {| mb_begin := 4160 + size;
                      mb_size := round_up granule 24 |} in
  {| this := bump_object granule 7 new_block;
     env := bump_world granule (4160 + size + round_up granule 24) None
              [bump_call_allocate granule 7 64 8 example_block;
               bump_call_allocate granule 7 1064 8 old_block;
               bump_call_deallocate granule 7 example_block;
               bump_call_allocate granule 7 24 8 new_block;
               bump_call_deallocate granule 7 old_block]
              (<[4160 + size := 10]> (<[4168 + size := 20]>
                 (<[4176 + size := 30]> ∅))) |}.

(** The example with no element in its view, an object that has just been
    constructed, and a second object that holds the next 32 bytes. *)
Definition empty_view : block_view := {| base := 4096; count := 0 |}.

Definition example_new_world : @world (bump_heap 1) N :=
  bump_world 1 4096 None [] ∅.

Definition example_neighbour : @block_storage_heap (bump_heap 1) :=
  bump_object 1 9 {| mb_begin := 4160; mb_size := 32 |}.

Definition example_shared_state : @state (bump_heap 1) N :=
  {| this := bump_object 1 7 example_block;
     env := bump_world 1 4192 None
              [bump_call_allocate 1 7 64 8 example_block;
               bump_call_allocate 1 9 32 8
                 {| mb_begin := 4160; mb_size := 32 |}]
              (<[4096 := 10]> (<[4104 := 20]> (<[4112 := 30]> ∅))) |}.

(** * Properties *)

Section properties.
Context {H : Heap} {G : GrowthPolicy} {T : Type} {E : Element T}.

Implicit Types (σ : @state H T) (w : @world H T) (m : gmap N T).
Implicit Types (v constructed : block_view) (b : memory_block).

(** ** The member functions, step by step *)

Ltac run := unfold mbind, M_bind, mret, M_ret, gets, modify, throw, lift_sum,
  try_catch, on_objects, on_env, zoom; simpl.

Lemma set_env_env σ : set_env (env σ) σ = σ.
Proof. by destruct σ. Qed.

Lemma deallocate_block_eq b σ :
  deallocate_block b σ
  = Returns tt (set_env (released (stored_argument (this σ)) b (env σ)) σ).
Proof.
  unfold deallocate_block, released, call_deallocate. run.
  destruct (mb_empty b); simpl; [by rewrite set_env_env | done].
Qed.

Lemma allocate_block_zero alignment σ :
  allocate_block 0 alignment σ = Returns empty_block σ.
Proof. done. Qed.

Lemma allocate_block_nonzero size alignment σ :
  size ≠ 0 →
  allocate_block size alignment σ
  = let h := stored_argument (this σ) in
    let r := Heap_allocate h size alignment (heap (env σ)) in
    let w' := {| heap := r.2;
                 calls := calls (env σ) ++ [CallAllocate h size alignment r.1];
                 objects := objects (env σ) |} in
    match r.1 with
    | inl e => Throws e (set_env w' σ)
    | inr b => Returns b (set_env w' σ)
    end.
Proof.
  intros Hsize. unfold allocate_block, call_allocate.
  destruct (N.eqb_spec size 0) as [|_]; [done|]. run.
  by destruct (Heap_allocate _ _ _ _) as [[e|b] hs].
Qed.

Lemma change_block_eq constructed new_block σ :
  change_block constructed new_block σ
  = let h := stored_argument (this σ) in
    match uninitialized_destructive_move constructed new_block
            (objects (env σ)) with
    | Returns _ m' =>
        Returns tt (set_block new_block
          (set_env (released h (block_ (this σ)) (set_objects m' (env σ))) σ))
    | Throws e m' =>
        Throws e (set_env (released h new_block (set_objects m' (env σ))) σ)
    | Undefined => Undefined
    end.
Proof.
  unfold change_block. run.
  destruct (uninitialized_destructive_move _ _ _) as [[] m'|e m'|]; simpl;
    [| |done]; by rewrite deallocate_block_eq.
Qed.

Lemma reserve_eq min_additional_bytes constructed σ :
  reserve min_additional_bytes constructed σ
  = match growth_size (mb_size (block_ (this σ))) min_additional_bytes
            (Heap_max_size (stored_argument (this σ)) (heap (env σ))) with
    | inl e => Throws e σ
    | inr new_size => resize_to new_size constructed σ
    end.
Proof.
  unfold reserve, resize_to, argument, max_size, call_max_size. run.
  rewrite set_env_env. by destruct (growth_size _ _ _).
Qed.

Lemma shrink_to_fit_eq constructed σ :
  shrink_to_fit constructed σ
  = resize_to (shrink_size (mb_size (block_ (this σ)))
                           (size_mul (count constructed) sizeof))
              constructed σ.
Proof. done. Qed.

(** ** The transfer algorithm *)

Lemma element_at_inj p i j : element_at p i = element_at p j → i = j.
Proof.
  unfold element_at. intros Heq. pose proof sizeof_pos as Hpos.
  apply N.add_cancel_l in Heq. apply N.mul_cancel_r in Heq; [done | lia].
Qed.

Lemma transfer_loop_returns n : ∀ i src dst m m',
  (∀ j k, i ≤ j < i + N.of_nat n → i ≤ k < i + N.of_nat n →
          element_at dst j ≠ element_at src k) →
  transfer_loop n i src dst m = Returns tt m' →
  (∀ k, i ≤ k < i + N.of_nat n →
        is_Some (m !! element_at src k)
        ∧ m' !! element_at dst k = m !! element_at src k
        ∧ m' !! element_at src k = None)
  ∧ (∀ a, (∀ k, i ≤ k < i + N.of_nat n →
                a ≠ element_at src k ∧ a ≠ element_at dst k) →
          m' !! a = m !! a).
Proof.
  induction n as [|n IH]; intros i src dst m m' Hapart Hrun.
  - simpl in Hrun. injection Hrun as <-. split; [intros k ?; lia | done].
  - simpl in Hrun.
    destruct (m !! element_at src i) as [x|] eqn:Hsrc; [|done].
    destruct (move_error x); [done|].
    apply IH in Hrun as [Hmoved Hframe];
      [|intros j k ? ?; apply Hapart; lia].
    assert (Hi : element_at dst i ≠ element_at src i) by (apply Hapart; lia).
    split.
    + intros k Hk. destruct (decide (k = i)) as [->|Hne].
      * rewrite Hsrc. split; [by eexists|].
        rewrite !Hframe.
        -- rewrite lookup_delete_eq, lookup_delete_ne, lookup_insert_eq by done.
           done.
        -- intros k Hk'. split.
           ++ intros Heq%element_at_inj. lia.
           ++ intros Heq. symmetry in Heq. revert Heq. apply Hapart; lia.
        -- intros k Hk'. split.
           ++ apply Hapart; lia.
           ++ intros Heq%element_at_inj. lia.
      * destruct (Hmoved k) as (Hsome & Hdst & Hgone); [lia|].
        assert (Hk1 : element_at src i ≠ element_at src k)
          by (intros Heq%element_at_inj; lia).
        assert (Hk2 : element_at dst i ≠ element_at src k)
          by (apply Hapart; lia).
        rewrite lookup_delete_ne, lookup_insert_ne in Hsome, Hdst by done.
        done.
    + intros a Ha. rewrite Hframe by (intros k ?; apply Ha; lia).
      destruct (Ha i) as [? ?]; [lia|].
      by rewrite lookup_delete_ne, lookup_insert_ne.
Qed.

Lemma transfer_loop_throws n : ∀ i src dst m e m',
  transfer_loop n i src dst m = Throws e m' → n ≠ O.
Proof. by destruct n. Qed.

(** A transfer that raises has moved into a block that is not empty. *)
Lemma transfer_throws_nonempty constructed new_block m e m' :
  uninitialized_destructive_move constructed new_block m = Throws e m' →
  mb_empty new_block = false.
Proof.
  unfold uninitialized_destructive_move, mb_empty.
  destruct (N.ltb_spec (mb_size new_block) (count constructed * sizeof))
    as [|Hroom]; [done|].
  intros Hnz%transfer_loop_throws. pose proof sizeof_pos.
  apply N.eqb_neq. nia.
Qed.

(** Elements of two runs that lie in blocks apart have different addresses. *)
Lemma elements_apart src dst n (old new : memory_block) j k :
  mb_begin old ≤ src → src + n * sizeof ≤ mb_begin old + mb_size old →
  mb_begin new ≤ dst → dst + n * sizeof ≤ mb_begin new + mb_size new →
  blocks_disjoint new old →
  j < n → k < n →
  element_at dst j ≠ element_at src k.
Proof.
  unfold element_at, blocks_disjoint. pose proof sizeof_pos. nia.
Qed.

Lemma lookup_read_view v m i :
  read_view v m !! i
  = if decide (i < N.to_nat (count v))%nat
    then Some (m !! element_at (base v) (N.of_nat i)) else None.
Proof.
  unfold read_view. rewrite list_lookup_fmap. case_decide as Hi.
  - by rewrite lookup_seq_lt.
  - by rewrite lookup_seq_ge by lia.
Qed.

Lemma length_read_view v m : length (read_view v m) = N.to_nat (count v).
Proof. unfold read_view. by rewrite length_fmap, length_seq. Qed.

(** A transfer that returns has moved every element of the view, in order,
    to the start of the new block, and has left none behind. *)
Lemma transfer_returns constructed new_block old m m' :
  view_in_block constructed old →
  (mb_empty new_block = false → blocks_disjoint new_block old) →
  uninitialized_destructive_move constructed new_block m = Returns tt m' →
  count constructed * sizeof ≤ mb_size new_block
  ∧ read_view (view_at new_block constructed) m' = read_view constructed m
  ∧ Forall is_Some (read_view constructed m)
  ∧ Forall (eq None) (read_view constructed m').
Proof.
  intros [Hlow Hhigh] Hfresh. unfold uninitialized_destructive_move.
  destruct (N.ltb_spec (mb_size new_block) (count constructed * sizeof))
    as [|Hroom]; [done|].
  intros Hrun. split; [done|]. pose proof sizeof_pos as Hpos.
  apply transfer_loop_returns in Hrun as [Hmoved _].
  - repeat split.
    + apply list_eq. intros i. rewrite !lookup_read_view. simpl.
      case_decide; [|done]. f_equal.
      by destruct (Hmoved (N.of_nat i)) as (_ & -> & _); [lia|].
    + apply Forall_lookup. intros i o. rewrite lookup_read_view.
      case_decide; [|done]. intros [= <-].
      by destruct (Hmoved (N.of_nat i)) as (? & _ & _); [lia|].
    + apply Forall_lookup. intros i o. rewrite lookup_read_view.
      case_decide; [|done]. intros [= <-].
      by destruct (Hmoved (N.of_nat i)) as (_ & _ & ->); [lia|].
  - intros j k Hj Hk.
    apply (elements_apart _ _ (count constructed) old new_block);
      try done; try lia.
    apply Hfresh. unfold mb_empty. apply N.eqb_neq. nia.
Qed.

(** ** Resizing *)

Lemma resize_to_eq target constructed σ :
  resize_to target constructed σ
  = if target =? 0 then change_block constructed empty_block σ
    else
      let h := stored_argument (this σ) in
      let r := Heap_allocate h target alignof (heap (env σ)) in
      let w' := {| heap := r.2;
                   calls := calls (env σ) ++ [CallAllocate h target alignof r.1];
                   objects := objects (env σ) |} in
      match r.1 with
      | inl e => Throws e (set_env w' σ)
      | inr new_block => change_block constructed new_block (set_env w' σ)
      end.
Proof.
  unfold resize_to. unfold mbind at 1, M_bind.
  destruct (N.eqb_spec target 0) as [->|Hnz].
  - by rewrite allocate_block_zero.
  - rewrite allocate_block_nonzero by done. simpl.
    by destruct (Heap_allocate _ _ _ _).1.
Qed.

(** A resize that returns: the block it adopts, the objects it leaves and
    the calls it has made. *)
Lemma resize_to_returns target constructed σ σ' :
  resize_to target constructed σ = Returns tt σ' →
  let h := stored_argument (this σ) in
  let old := block_ (this σ) in
  ∃ new_block,
    this σ' = {| stored_argument := h; block_ := new_block |}
    ∧ uninitialized_destructive_move constructed new_block (objects (env σ))
      = Returns tt (objects (env σ'))
    ∧ (if target =? 0 then new_block = empty_block
       else ∃ hs', Heap_allocate h target alignof (heap (env σ))
                   = (inr new_block, hs'))
    ∧ calls (env σ')
      = calls (env σ)
        ++ (if target =? 0 then []
            else [CallAllocate h target alignof (inr new_block)])
        ++ (if mb_empty old then [] else [CallDeallocate h old]).
Proof.
  rewrite resize_to_eq. simpl.
  destruct (target =? 0).
  - rewrite change_block_eq. simpl.
    destruct (uninitialized_destructive_move _ _ _) as [[] m'|e m'|] eqn:Hmove;
      [|done..].
    intros [= <-]. exists empty_block. simpl. unfold released.
    destruct (mb_empty (block_ (this σ))); simpl;
      by rewrite ?app_nil_r.
  - destruct (Heap_allocate _ _ _ _) as [[e|new_block] hs'] eqn:Halloc;
      simpl; [done|].
    rewrite change_block_eq. simpl.
    destruct (uninitialized_destructive_move _ _ _) as [[] m'|e m'|] eqn:Hmove;
      [|done..].
    intros [= <-]. exists new_block. simpl. unfold released.
    destruct (mb_empty (block_ (this σ))); simpl;
      rewrite ?app_nil_r, <-?app_assoc; eauto.
Qed.

(** A resize in which the transfer raises: the new block is given back,
    the error is passed on and the object is as it was. *)
Lemma resize_to_transfer_throws target constructed σ new_block σ1 e m2 :
  allocate_block target alignof σ = Returns new_block σ1 →
  uninitialized_destructive_move constructed new_block (objects (env σ1))
    = Throws e m2 →
  let h := stored_argument (this σ) in
  ∃ σ',
    resize_to target constructed σ = Throws e σ'
    ∧ this σ' = this σ
    ∧ calls (env σ')
      = calls (env σ) ++ [CallAllocate h target alignof (inr new_block);
                          CallDeallocate h new_block]
    ∧ heap (env σ') = Heap_deallocate h new_block (heap (env σ1))
    ∧ objects (env σ') = m2.
Proof.
  intros Halloc Hmove. simpl.
  pose proof (transfer_throws_nonempty _ _ _ _ _ Hmove) as Hne.
  assert (Hnz : target ≠ 0).
  { intros ->. rewrite allocate_block_zero in Halloc.
    by injection Halloc as <- <-. }
  unfold resize_to. unfold mbind at 1, M_bind. rewrite Halloc.
  rewrite change_block_eq, Hmove. simpl.
  rewrite allocate_block_nonzero in Halloc by done. simpl in Halloc.
  destruct (Heap_allocate _ _ _ _) as [[e'|b] hs'] eqn:Hheap;
    simpl in Halloc; [done|].
  injection Halloc as -> <-. eexists. split; [done|].
  unfold released. rewrite Hne. simpl. by rewrite <-app_assoc.
Qed.

Lemma swap_eq (s : @swap_state H T) :
  swap s = Returns tt {| lhs := rhs s;
                         lhs_constructed := rhs_constructed s;
                         rhs := lhs s;
                         rhs_constructed := lhs_constructed s;
                         swap_env := swap_env s |}.
Proof. by destruct s as [[] ? [] ? ?]. Qed.

(** ** The log of Heap calls *)

Lemma outstanding_snoc (log : list (@heap_call H)) c :
  outstanding (log ++ [c]) = record_call (outstanding log) c.
Proof. unfold outstanding. by rewrite fold_left_app. Qed.

Lemma remove_one_head {A} `{EqDecision A} (x : A) l : remove_one x (x :: l) = l.
Proof. simpl. by rewrite decide_True. Qed.

Lemma outstanding_released h b w :
  outstanding (calls (released h b w))
  = if mb_empty b then outstanding (calls w)
    else remove_one (h, b) (outstanding (calls w)).
Proof.
  unfold released. destruct (mb_empty b); [done|]. simpl.
  by rewrite outstanding_snoc.
Qed.

(** Ownership is kept by a change of block, however it ends, when the new
    block is empty or is the last one the log shows as handed out. *)
Lemma change_block_owns constructed new_block σ σ' live :
  (mb_empty new_block = false →
   outstanding (calls (env σ))
   = (stored_argument (this σ), new_block) :: live
   ∧ (mb_empty (block_ (this σ)) = false →
      (stored_argument (this σ), block_ (this σ)) ∈ live)) →
  (mb_empty new_block = true → owns (this σ) (calls (env σ))) →
  final_state (change_block constructed new_block σ) = Some σ' →
  owns (this σ') (calls (env σ')).
Proof.
  intros Hnew Hsame. rewrite change_block_eq. simpl.
  destruct (uninitialized_destructive_move _ _ _) as [[] m'|e m'|];
    [| |done]; intros [= <-]; unfold owns; simpl; intros Hne.
  - destruct (Hnew Hne) as [Hlog Hold].
    rewrite outstanding_released. simpl. rewrite Hlog.
    destruct (mb_empty (block_ (this σ))) eqn:Hempty; [left|].
    simpl. case_decide as Heq; [|left].
    injection Heq as Heq. rewrite <-Heq. by apply Hold.
  - rewrite outstanding_released. simpl.
    destruct (mb_empty new_block) eqn:Hempty; [by apply Hsame|].
    destruct Hnew as [Hlog Hold]; [done|].
    rewrite Hlog, remove_one_head. by apply Hold.
Qed.

Lemma resize_to_owns target constructed σ σ' :
  owns (this σ) (calls (env σ)) →
  final_state (resize_to target constructed σ) = Some σ' →
  owns (this σ') (calls (env σ')).
Proof.
  intros Howns. rewrite resize_to_eq. simpl. destruct (target =? 0).
  - by apply (change_block_owns _ _ _ _ []).
  - destruct (Heap_allocate _ _ _ _) as [[e|new_block] hs'] eqn:Halloc; simpl.
    + intros [= <-]. unfold owns. simpl. by rewrite outstanding_snoc.
    + apply (change_block_owns _ _ _ _ (outstanding (calls (env σ)))); simpl.
      * intros _. by rewrite outstanding_snoc.
      * intros _ Hne. rewrite outstanding_snoc. simpl. right. by apply Howns.
Qed.

Lemma extends_ok_refl log : extends_ok log log.
Proof. exists []. by rewrite app_nil_r. Qed.

Lemma extends_ok_trans log1 log2 log3 :
  extends_ok log1 log2 → extends_ok log2 log3 → extends_ok log1 log3.
Proof.
  intros (new & -> & Hok) (new' & -> & Hok'). exists (new ++ new').
  by rewrite app_assoc, forallb_app, Hok, Hok'.
Qed.

Lemma released_extends_ok h b w : extends_ok (calls w) (calls (released h b w)).
Proof.
  unfold released. destruct (mb_empty b) eqn:Hempty;
    [apply extends_ok_refl|].
  eexists. split; [done|]. simpl. by rewrite Hempty.
Qed.

Lemma change_block_extends_ok constructed new_block σ σ' :
  final_state (change_block constructed new_block σ) = Some σ' →
  extends_ok (calls (env σ)) (calls (env σ')).
Proof.
  rewrite change_block_eq. simpl.
  destruct (uninitialized_destructive_move _ _ _) as [[] m'|e m'|];
    [| |done]; intros [= <-]; simpl;
    apply (released_extends_ok _ _ (set_objects m' (env σ))).
Qed.

Lemma resize_to_extends_ok target constructed σ σ' :
  final_state (resize_to target constructed σ) = Some σ' →
  extends_ok (calls (env σ)) (calls (env σ')).
Proof.
  rewrite resize_to_eq. simpl.
  destruct (N.eqb_spec target 0) as [|Hnz];
    [apply change_block_extends_ok|].
  assert (Hcall : ∀ r, extends_ok (calls (env σ))
            (calls (env σ) ++ [CallAllocate (stored_argument (this σ))
                                            target alignof r])).
  { intros r. eexists. split; [done|]. simpl.
    by destruct (N.eqb_spec target 0). }
  destruct (Heap_allocate _ _ _ _) as [[e|new_block] hs']; simpl.
  - intros [= <-]. apply Hcall.
  - intros Hrun%change_block_extends_ok. simpl in Hrun.
    eapply extends_ok_trans; [apply Hcall | apply Hrun].
Qed.

Lemma run_operation_extends_ok o w w' :
  run_operation o w = Some w' → extends_ok (calls w) (calls w').
Proof.
  destruct o as [arg|obj n v|obj v|a av b bv|obj]; simpl.
  - intros [= <-]. apply extends_ok_refl.
  - rewrite reserve_eq. simpl. destruct (growth_size _ _ _) as [e|new_size].
    + intros [= <-]. apply extends_ok_refl.
    + destruct (final_state _) as [σ'|] eqn:Hrun; [|done].
      intros [= <-]. by apply resize_to_extends_ok in Hrun.
  - rewrite shrink_to_fit_eq.
    destruct (final_state _) as [σ'|] eqn:Hrun; [|done].
    intros [= <-]. by apply resize_to_extends_ok in Hrun.
  - intros [= <-]. apply extends_ok_refl.
  - unfold destroy. unfold mbind, M_bind, gets.
    rewrite deallocate_block_eq. intros [= <-]. apply released_extends_ok.
Qed.

(** ** The error paths *)

(** C1. When the relocation of the elements raises during [reserve] or
    [shrink_to_fit], the block that was just allocated is deallocated, the
    error that was raised is the one passed on to the caller, and the object
    is as before the call: [block()] is still the old block. *)
Theorem relocation_failure_rolls_back constructed σ new_size new_block σ1 e m2 :
  allocate_block new_size alignof σ = Returns new_block σ1 →
  uninitialized_destructive_move constructed new_block (objects (env σ1))
    = Throws e m2 →
  let h := stored_argument (this σ) in
  ∃ σ',
    (∀ min_additional_bytes,
        growth_size (mb_size (block_ (this σ))) min_additional_bytes
                    (Heap_max_size h (heap (env σ))) = inr new_size →
        reserve min_additional_bytes constructed σ = Throws e σ')
    ∧ (shrink_size (mb_size (block_ (this σ)))
                   (size_mul (count constructed) sizeof) = new_size →
       shrink_to_fit constructed σ = Throws e σ')
    ∧ this σ' = this σ
    ∧ block_ (this σ') = block_ (this σ)
    ∧ calls (env σ')
      = calls (env σ) ++ [CallAllocate h new_size alignof (inr new_block);
                          CallDeallocate h new_block].
Proof.
  intros Halloc Hmove h.
  destruct (resize_to_transfer_throws _ _ _ _ _ _ _ Halloc Hmove)
    as (σ' & Hrun & Hthis & Hcalls & _).
  exists σ'. repeat split; [| |done|by rewrite Hthis|done].
  - intros min_additional_bytes Hgrow. rewrite reserve_eq.
    fold h. by rewrite Hgrow.
  - intros <-. by rewrite shrink_to_fit_eq.
Qed.

(** C3. When [Heap::allocate] raises during [reserve], the error is passed
    on, [block()] is the block of before the call and no element has been
    touched, whatever the move constructor of the elements may do. *)
Theorem reserve_allocation_failure min_additional_bytes constructed σ
    new_size e hs' :
  growth_size (mb_size (block_ (this σ))) min_additional_bytes
              (Heap_max_size (stored_argument (this σ)) (heap (env σ)))
    = inr new_size →
  new_size ≠ 0 →
  Heap_allocate (stored_argument (this σ)) new_size alignof (heap (env σ))
    = (inl e, hs') →
  ∃ σ',
    reserve min_additional_bytes constructed σ = Throws e σ'
    ∧ this σ' = this σ
    ∧ objects (env σ') = objects (env σ)
    ∧ calls (env σ')
      = calls (env σ) ++ [CallAllocate (stored_argument (this σ)) new_size
                                       alignof (inl e)].
Proof.
  intros Hgrow Hnz Hheap. rewrite reserve_eq, Hgrow, resize_to_eq.
  destruct (N.eqb_spec new_size 0) as [|_]; [done|].
  simpl. rewrite Hheap. simpl. by eexists.
Qed.

(** C4. When [GrowthPolicy::growth_size] raises (CapacityExceeded), [reserve]
    passes the error on from the state it was called in: the log of Heap
    calls has no new entry, so [Heap::allocate] was not called, and the
    object and the world are unchanged. *)
Theorem reserve_capacity_exceeded min_additional_bytes constructed σ e :
  growth_size (mb_size (block_ (this σ))) min_additional_bytes
              (Heap_max_size (stored_argument (this σ)) (heap (env σ)))
    = inl e →
  reserve min_additional_bytes constructed σ = Throws e σ.
Proof. intros Hgrow. by rewrite reserve_eq, Hgrow. Qed.

(** ** Swap and destruction *)

(** C5. [swap] returns, with the two handles, the two blocks and the two
    views exchanged, so that each object's [block()] is the other's of
    before; the Heap is not called and no element is moved: the allocator,
    the log of calls and the objects are those of before. *)
Theorem swap_exchanges (s : @swap_state H T) :
  ∃ s',
    swap s = Returns tt s'
    ∧ stored_argument (lhs s') = stored_argument (rhs s)
    ∧ stored_argument (rhs s') = stored_argument (lhs s)
    ∧ block_ (lhs s') = block_ (rhs s)
    ∧ block_ (rhs s') = block_ (lhs s)
    ∧ lhs_constructed s' = rhs_constructed s
    ∧ rhs_constructed s' = lhs_constructed s
    ∧ swap_env s' = swap_env s.
Proof. eexists. by rewrite swap_eq. Qed.

(** C9. The destructor returns; it passes the block to [Heap::deallocate]
    when the block is not empty and does nothing when it is. *)
Theorem destroy_releases σ :
  let h := stored_argument (this σ) in
  let b := block_ (this σ) in
  ∃ σ',
    destroy σ = Returns tt σ'
    ∧ this σ' = this σ
    ∧ objects (env σ') = objects (env σ)
    ∧ calls (env σ')
      = calls (env σ) ++ (if mb_empty b then [] else [CallDeallocate h b])
    ∧ heap (env σ')
      = (if mb_empty b then heap (env σ)
         else Heap_deallocate h b (heap (env σ))).
Proof.
  simpl. unfold destroy. unfold mbind, M_bind, gets.
  rewrite deallocate_block_eq. eexists. split; [done|].
  unfold released. destruct (mb_empty (block_ (this σ))); simpl;
    by rewrite ?app_nil_r.
Qed.

(** ** Growing and shrinking *)

(** The transfer of a resize that returns, for a view that lies in the old
    block and a Heap that hands out storage apart from it. *)
Lemma resize_to_transfers target constructed σ σ' :
  allocates_fresh σ →
  view_in_block constructed (block_ (this σ)) →
  resize_to target constructed σ = Returns tt σ' →
  view_in_block (view_at (block_ (this σ')) constructed) (block_ (this σ'))
  ∧ read_view (view_at (block_ (this σ')) constructed) (objects (env σ'))
    = read_view constructed (objects (env σ))
  ∧ Forall is_Some (read_view constructed (objects (env σ)))
  ∧ Forall (eq None) (read_view constructed (objects (env σ'))).
Proof.
  intros Hfresh Hview Hrun.
  apply resize_to_returns in Hrun as (new_block & -> & Hmove & Hnew & _).
  simpl in *. eapply transfer_returns in Hmove as (Hroom & ? & ? & ?);
    [|done|].
  - repeat split; try done. unfold view_in_block. simpl. lia.
  - intros Hne. destruct (target =? 0).
    + by subst new_block.
    + destruct Hnew as [hs' Hheap]. by eapply Hfresh.
Qed.

(** The size of the block adopted by a resize that returns. *)
Lemma resize_to_size target constructed σ σ' :
  resize_to target constructed σ = Returns tt σ' →
  (allocate_contract → target ≤ mb_size (block_ (this σ')))
  ∧ (allocate_exact → mb_size (block_ (this σ')) = target).
Proof.
  intros Hrun.
  apply resize_to_returns in Hrun as (new_block & -> & _ & Hnew & _).
  simpl in *. destruct (N.eqb_spec target 0) as [->|Hnz].
  - by subst new_block.
  - destruct Hnew as [hs' Hheap]. split; intros Hcontract.
    + by eapply Hcontract.
    + by eapply Hcontract.
Qed.

(** C2. A [reserve] that returns, with a growth policy and a Heap that meet
    their contracts and a view that lies in the block: the new block has room
    for the requested bytes on top of the live ones, the elements of the view
    are alive at the start of the new block, in the same order and with the
    same values, and none is left alive where it was. *)
Theorem reserve_postcondition min_additional_bytes constructed σ σ' :
  growth_size_contract →
  allocate_contract →
  allocates_fresh σ →
  view_in_block constructed (block_ (this σ)) →
  reserve min_additional_bytes constructed σ = Returns tt σ' →
  min_additional_bytes + count constructed * sizeof
    ≤ mb_size (block_ (this σ'))
  ∧ read_view (view_at (block_ (this σ')) constructed) (objects (env σ'))
    = read_view constructed (objects (env σ))
  ∧ Forall is_Some (read_view constructed (objects (env σ)))
  ∧ Forall (eq None) (read_view constructed (objects (env σ'))).
Proof.
  intros Hgrowth Halloc Hfresh Hview. rewrite reserve_eq.
  destruct (growth_size _ _ _) as [e|new_size] eqn:Hgrow; [done|].
  intros Hrun. apply Hgrowth in Hgrow as [Hgrow _].
  destruct (resize_to_transfers _ _ _ _ Hfresh Hview Hrun)
    as (Hroom & ? & ? & ?).
  apply resize_to_size in Hrun as [Hsize _]. specialize (Hsize Halloc).
  split; [|done]. destruct Hview as [? ?]. lia.
Qed.

(** C6, as amended.  [shrink_to_fit] resizes to
    [shrink_size(block.size, count * sizeof(T))], the product being taken on
    [size_type], by the steps [reserve] takes for its own target.  After a
    [reserve] and a [shrink_to_fit] that both return, the block is at least
    as large as that target, and exactly as large when the Heap hands out
    blocks of the size asked for; the elements are those of before the two
    calls, in order.  The product does not wrap around for a view that lies
    in a block whose size is a [size_type]. *)
Theorem reserve_then_shrink_to_fit min_additional_bytes constructed σ σ1 σ2 :
  let moved := view_at (block_ (this σ1)) constructed in
  let target := shrink_size (mb_size (block_ (this σ1)))
                            (size_mul (count constructed) sizeof) in
  allocate_contract →
  allocates_fresh σ →
  allocates_fresh σ1 →
  view_in_block constructed (block_ (this σ)) →
  reserve min_additional_bytes constructed σ = Returns tt σ1 →
  shrink_to_fit moved σ1 = Returns tt σ2 →
  shrink_to_fit moved σ1 = resize_to target moved σ1
  ∧ (∃ new_size,
        growth_size (mb_size (block_ (this σ))) min_additional_bytes
          (Heap_max_size (stored_argument (this σ)) (heap (env σ)))
        = inr new_size
        ∧ reserve min_additional_bytes constructed σ
          = resize_to new_size constructed σ)
  ∧ target ≤ mb_size (block_ (this σ2))
  ∧ (allocate_exact → mb_size (block_ (this σ2)) = target)
  ∧ read_view (view_at (block_ (this σ2)) constructed) (objects (env σ2))
    = read_view constructed (objects (env σ))
  ∧ Forall is_Some (read_view constructed (objects (env σ)))
  ∧ (mb_size (block_ (this σ)) < size_modulus →
     size_mul (count constructed) sizeof = count constructed * sizeof).
Proof.
  intros moved target Halloc Hfresh Hfresh1 Hview Hreserve Hshrink.
  assert (Hmul : mb_size (block_ (this σ)) < size_modulus →
                 size_mul (count constructed) sizeof
                 = count constructed * sizeof).
  { intros Hfits. apply N.mod_small. destruct Hview as [? ?]. lia. }
  split; [done|]. rewrite shrink_to_fit_eq in Hshrink. fold target in Hshrink.
  rewrite reserve_eq in Hreserve |- *.
  destruct (growth_size _ _ _) as [e|new_size] eqn:Hgrow; [done|].
  split; [by eexists|].
  destruct (resize_to_transfers _ _ _ _ Hfresh Hview Hreserve)
    as (Hview1 & Hread1 & Hsome & _).
  destruct (resize_to_transfers _ _ _ _ Hfresh1 Hview1 Hshrink)
    as (_ & Hread2 & _ & _).
  apply resize_to_size in Hshrink as [Hsize Hexact].
  split; [by apply Hsize|]. split; [done|].
  split; [by rewrite <-Hread1, <-Hread2|]. by split.
Qed.

(** C7, as amended.  Two calls of [shrink_to_fit] in a row, on views of the
    same number of elements, leave blocks of the same size, when the Heap
    hands out blocks of the size asked for and the policy's shrink target
    is a fixed point of itself. *)
Theorem shrink_to_fit_twice constructed constructed' σ σ1 σ2 :
  allocate_exact →
  shrink_size_stable →
  count constructed' = count constructed →
  shrink_to_fit constructed σ = Returns tt σ1 →
  shrink_to_fit constructed' σ1 = Returns tt σ2 →
  mb_size (block_ (this σ2)) = mb_size (block_ (this σ1)).
Proof.
  intros Hexact Hstable Hcount. rewrite !shrink_to_fit_eq, Hcount.
  intros [_ Hsize1]%resize_to_size [_ Hsize2]%resize_to_size.
  rewrite (Hsize2 Hexact), (Hsize1 Hexact). apply Hstable.
Qed.

(** ** Invariants *)

(** C8. The ownership invariant: a block that is not empty was handed out
    by the Heap through the object's handle and has not been given back.  It
    holds of a constructed object, whose block is empty and whose
    construction calls nothing, and [reserve], [shrink_to_fit] and [swap]
    keep it, whether they return or raise. *)
Theorem ownership_invariant :
  (∀ arg w, ∃ obj,
      construct arg w = Returns obj w
      ∧ stored_argument obj = arg
      ∧ block_ obj = empty_block
      ∧ owns obj (calls w))
  ∧ (∀ min_additional_bytes constructed σ σ',
        owns (this σ) (calls (env σ)) →
        final_state (reserve min_additional_bytes constructed σ) = Some σ' →
        owns (this σ') (calls (env σ')))
  ∧ (∀ constructed σ σ',
        owns (this σ) (calls (env σ)) →
        final_state (shrink_to_fit constructed σ) = Some σ' →
        owns (this σ') (calls (env σ')))
  ∧ (∀ (s s' : @swap_state H T),
        owns (lhs s) (calls (swap_env s)) →
        owns (rhs s) (calls (swap_env s)) →
        final_state (swap s) = Some s' →
        owns (lhs s') (calls (swap_env s'))
        ∧ owns (rhs s') (calls (swap_env s'))).
Proof.
  split; [|split; [|split]].
  - intros arg w. by eexists.
  - intros n v σ σ' Howns. rewrite reserve_eq.
    destruct (growth_size _ _ _) as [e|new_size].
    + by intros [= <-].
    + by apply resize_to_owns.
  - intros v σ σ' Howns. rewrite shrink_to_fit_eq. by apply resize_to_owns.
  - intros s s' Hlhs Hrhs. rewrite swap_eq. by intros [= <-].
Qed.

(** C10. In every execution, whatever the calls and the objects they are
    made on, the calls added to the log are well formed: no [Heap::allocate]
    of zero bytes and no [Heap::deallocate] of an empty block.  A target of
    zero bytes gives the empty block and leaves the allocator alone. *)
Theorem heap_calls_well_formed :
  (∀ os w w',
      run_operations os w = Some w' →
      ∃ new, calls w' = calls w ++ new ∧ forallb call_ok new = true)
  ∧ (∀ alignment σ, allocate_block 0 alignment σ = Returns empty_block σ).
Proof.
  split; [|done].
  induction os as [|o os IH]; intros w w'; simpl.
  - intros [= <-]. apply extends_ok_refl.
  - destruct (run_operation o w) as [w1|] eqn:Hstep; [|done].
    intros Hrest. eapply extends_ok_trans.
    + by apply run_operation_extends_ok in Hstep.
    + by apply IH.
Qed.

(** ** What a resize does to the object *)

Lemma resize_to_throws_this target constructed σ e σ' :
  resize_to target constructed σ = Throws e σ' → this σ' = this σ.
Proof.
  rewrite resize_to_eq. simpl. destruct (target =? 0).
  - rewrite change_block_eq. simpl.
    destruct (uninitialized_destructive_move _ _ _) as [[] m'|e' m'|];
      [done| |done]. by intros [= _ <-].
  - destruct (Heap_allocate _ _ _ _) as [[e'|new_block] hs']; simpl.
    + by intros [= _ <-].
    + rewrite change_block_eq. simpl.
      destruct (uninitialized_destructive_move _ _ _) as [[] m'|e' m'|];
        [done| |done]. by intros [= _ <-].
Qed.

Lemma resize_to_argument target constructed σ σ' :
  final_state (resize_to target constructed σ) = Some σ' →
  stored_argument (this σ') = stored_argument (this σ).
Proof.
  destruct (resize_to target constructed σ) as [[] σ1|e σ1|] eqn:Hrun;
    simpl; [| |done]; intros [= <-].
  - by apply resize_to_returns in Hrun as (new_block & -> & _).
  - by rewrite (resize_to_throws_this _ _ _ _ _ Hrun).
Qed.

Lemma resize_argument r σ σ' :
  final_state (resize r σ) = Some σ' →
  stored_argument (this σ') = stored_argument (this σ).
Proof.
  destruct r as [n v|v]; simpl.
  - rewrite reserve_eq. destruct (growth_size _ _ _) as [e|new_size].
    + by intros [= <-].
    + apply resize_to_argument.
  - rewrite shrink_to_fit_eq. apply resize_to_argument.
Qed.

(** X1. A [reserve] or a [shrink_to_fit] that returns has adopted the block
    it got for its target (the empty block for a target of zero), has kept
    its handle, and has made these calls on the Heap and no other: the
    allocation, unless the target is zero, and then one deallocation of
    the block it held, unless that was empty. *)
Theorem resize_returns_trace :
  (∀ min_additional_bytes constructed σ σ',
      reserve min_additional_bytes constructed σ = Returns tt σ' →
      let h := stored_argument (this σ) in
      let old := block_ (this σ) in
      ∃ target new_block,
        growth_size (mb_size old) min_additional_bytes
                    (Heap_max_size h (heap (env σ))) = inr target
        ∧ this σ' = {| stored_argument := h; block_ := new_block |}
        ∧ (target = 0 → new_block = empty_block)
        ∧ calls (env σ')
          = calls (env σ)
            ++ (if target =? 0 then []
                else [CallAllocate h target alignof (inr new_block)])
            ++ (if mb_empty old then [] else [CallDeallocate h old]))
  ∧ (∀ constructed σ σ',
        shrink_to_fit constructed σ = Returns tt σ' →
        let h := stored_argument (this σ) in
        let old := block_ (this σ) in
        let target := shrink_size (mb_size old)
                                  (size_mul (count constructed) sizeof) in
        ∃ new_block,
          this σ' = {| stored_argument := h; block_ := new_block |}
          ∧ (target = 0 → new_block = empty_block)
          ∧ calls (env σ')
            = calls (env σ)
              ++ (if target =? 0 then []
                  else [CallAllocate h target alignof (inr new_block)])
              ++ (if mb_empty old then [] else [CallDeallocate h old])).
Proof.
  split.
  - intros n v σ σ'. rewrite reserve_eq. simpl.
    destruct (growth_size _ _ _) as [e|target]; [done|].
    intros (new_block & Hthis & _ & Hnew & Hcalls)%resize_to_returns.
    exists target, new_block. repeat split; try done.
    intros ->. by simpl in Hnew.
  - intros v σ σ'. rewrite shrink_to_fit_eq. simpl.
    intros (new_block & Hthis & _ & Hnew & Hcalls)%resize_to_returns.
    exists new_block. repeat split; try done.
    intros Hzero. rewrite Hzero in Hnew. by simpl in Hnew.
Qed.

(** X2. Whenever [reserve] or [shrink_to_fit] raises, for whatever reason,
    the object is as before the call: the same handle and the same block. *)
Theorem resize_throws_object_unchanged r σ e σ' :
  resize r σ = Throws e σ' → this σ' = this σ.
Proof.
  destruct r as [n v|v]; simpl.
  - rewrite reserve_eq. destruct (growth_size _ _ _) as [e'|new_size].
    + by intros [= _ <-].
    + apply resize_to_throws_this.
  - rewrite shrink_to_fit_eq. apply resize_to_throws_this.
Qed.

(** X3. When [Heap::allocate] raises during [shrink_to_fit], the error is
    passed on, the object is as before and no element has been touched. *)
Theorem shrink_to_fit_allocation_failure constructed σ e hs' :
  let h := stored_argument (this σ) in
  let target := shrink_size (mb_size (block_ (this σ)))
                            (size_mul (count constructed) sizeof) in
  target ≠ 0 →
  Heap_allocate h target alignof (heap (env σ)) = (inl e, hs') →
  ∃ σ',
    shrink_to_fit constructed σ = Throws e σ'
    ∧ this σ' = this σ
    ∧ objects (env σ') = objects (env σ)
    ∧ calls (env σ')
      = calls (env σ) ++ [CallAllocate h target alignof (inl e)].
Proof.
  intros h target Hnz Hheap. rewrite shrink_to_fit_eq, resize_to_eq.
  fold target. destruct (N.eqb_spec target 0) as [|_]; [done|].
  simpl. fold h. rewrite Hheap. simpl. by eexists.
Qed.

(** X4. [swap] undoes itself: two swaps in a row of the same operands leave
    both objects and both views as they were. *)
Theorem swap_involutive (s : @swap_state H T) :
  ∃ s', swap s = Returns tt s' ∧ swap s' = Returns tt s.
Proof.
  eexists. split; [apply swap_eq|]. rewrite swap_eq. simpl.
  by destruct s.
Qed.

(** ** Sizes *)

Lemma max_size_eq h σ :
  max_size h σ = Returns (Heap_max_size h (heap (env σ))) σ.
Proof. unfold max_size, call_max_size. run. by rewrite set_env_env. Qed.

(** X5. A [reserve] that returns, with a growth policy and a Heap that meet
    their contracts, has grown the block by the requested bytes at least;
    when the Heap hands out the size asked for, the block is no larger than
    what [max_size] gave for the handle before the call. *)
Theorem reserve_grows_block min_additional_bytes constructed σ σ' limit :
  growth_size_contract →
  allocate_contract →
  max_size (stored_argument (this σ)) σ = Returns limit σ →
  reserve min_additional_bytes constructed σ = Returns tt σ' →
  mb_size (block_ (this σ)) + min_additional_bytes
    ≤ mb_size (block_ (this σ'))
  ∧ (allocate_exact → mb_size (block_ (this σ')) ≤ limit).
Proof.
  intros Hgrowth Halloc. rewrite max_size_eq, reserve_eq. intros [= <-].
  destruct (growth_size _ _ _) as [e|new_size] eqn:Hgrow; [done|].
  apply Hgrowth in Hgrow as [Hlow Hhigh].
  intros [Hsize Hexact]%resize_to_size. specialize (Hsize Halloc).
  split; [lia|]. intros Hheap. rewrite (Hexact Hheap). done.
Qed.

(** X6. Calls of [reserve] in a row that all return have grown the block by
    the sum of the bytes they asked for, at least. *)
Theorem reserve_all_grows rs : ∀ σ σ',
  growth_size_contract →
  allocate_contract →
  reserve_all rs σ = Returns tt σ' →
  mb_size (block_ (this σ)) + requested rs ≤ mb_size (block_ (this σ')).
Proof.
  induction rs as [|[n v] rs IH]; intros σ σ' Hgrowth Halloc; simpl.
  - intros [= <-]. unfold requested. simpl. lia.
  - unfold mbind, M_bind.
    destruct (reserve n v σ) as [[] σ1|e σ1|] eqn:Hfirst; [|done..].
    intros Hrest%IH; [|done..].
    rewrite reserve_eq in Hfirst.
    destruct (growth_size _ _ _) as [e|new_size] eqn:Hgrow; [done|].
    apply Hgrowth in Hgrow as [Hlow _].
    apply resize_to_size in Hfirst as [Hsize _]. specialize (Hsize Halloc).
    unfold requested in *. simpl. lia.
Qed.

(** X7. A [shrink_to_fit] that returns, with a policy and a Heap that meet
    their contracts, leaves a block with room for the live bytes. *)
Theorem shrink_to_fit_room constructed σ σ' :
  shrink_size_contract →
  allocate_contract →
  shrink_to_fit constructed σ = Returns tt σ' →
  size_mul (count constructed) sizeof ≤ mb_size (block_ (this σ')).
Proof.
  intros Hshrink Halloc. rewrite shrink_to_fit_eq.
  intros [Hsize _]%resize_to_size. specialize (Hsize Halloc).
  pose proof (Hshrink (mb_size (block_ (this σ)))
                      (size_mul (count constructed) sizeof)). lia.
Qed.

(** X8. [shrink_to_fit] of no element, when the policy's target for no live
    byte is zero, returns without a call of [Heap::allocate]: the block it
    held is deallocated, the object is left with the empty block, and no
    element object is touched. *)
Theorem shrink_to_fit_empty_releases constructed σ :
  let h := stored_argument (this σ) in
  let old := block_ (this σ) in
  count constructed = 0 →
  shrink_size (mb_size old) 0 = 0 →
  ∃ σ',
    shrink_to_fit constructed σ = Returns tt σ'
    ∧ this σ' = {| stored_argument := h; block_ := empty_block |}
    ∧ objects (env σ') = objects (env σ)
    ∧ calls (env σ')
      = calls (env σ) ++ (if mb_empty old then [] else [CallDeallocate h old]).
Proof.
  intros h old Hcount Hzero. rewrite shrink_to_fit_eq, Hcount.
  change (size_mul 0 sizeof) with 0. fold old. rewrite Hzero, resize_to_eq.
  simpl. rewrite change_block_eq. unfold uninitialized_destructive_move.
  rewrite Hcount. simpl. eexists. split; [done|]. simpl.
  unfold released. fold old.
  destruct (mb_empty old); simpl; by rewrite ?app_nil_r.
Qed.

(** ** The ledger of the Heap *)

Lemma elem_of_remove_one_ne {A} `{EqDecision A} (x y : A) l :
  x ∈ l → x ≠ y → x ∈ remove_one y l.
Proof.
  intros Hin Hne. induction l as [|z l IH]; simpl; [done|].
  case_decide as Heq.
  - apply elem_of_cons in Hin as [->|Hin]; [by subst|done].
  - apply elem_of_cons in Hin as [->|Hin]; [left|right; by apply IH].
Qed.

Lemma sound_from_app (l1 l2 : list (@heap_call H)) : ∀ live,
  sound_from live (l1 ++ l2)
  = sound_from live l1 && sound_from (fold_left record_call l1 live) l2.
Proof.
  induction l1 as [|c l1 IH]; intros live; simpl; [done|].
  by rewrite IH, andb_assoc.
Qed.

Lemma log_sound_allocate (log : list (@heap_call H)) h size alignment r :
  log_sound (log ++ [CallAllocate h size alignment r]) = log_sound log.
Proof.
  unfold log_sound. rewrite sound_from_app. simpl. by rewrite andb_true_r.
Qed.

Lemma log_sound_released h b w :
  log_sound (calls w) = true →
  (mb_empty b = false → (h, b) ∈ outstanding (calls w)) →
  log_sound (calls (released h b w)) = true.
Proof.
  intros Hsound Hin. unfold released.
  destruct (mb_empty b); [done|]. simpl. unfold log_sound in *.
  rewrite sound_from_app, Hsound. simpl. rewrite andb_true_r.
  apply bool_decide_eq_true. by apply Hin.
Qed.

(** A change of block, however it ends, when the log shows as outstanding
    the new block, if any, the block held and the blocks [rest]. *)
Lemma change_block_ledger constructed new_block σ σ' rest :
  outstanding (calls (env σ))
  = (if mb_empty new_block then []
     else [(stored_argument (this σ), new_block)])
    ++ held (this σ) ++ rest →
  final_state (change_block constructed new_block σ) = Some σ' →
  outstanding (calls (env σ')) = held (this σ') ++ rest
  ∧ (log_sound (calls (env σ)) = true → log_sound (calls (env σ')) = true).
Proof.
  intros Hlive. rewrite change_block_eq. simpl.
  destruct (uninitialized_destructive_move _ _ _) as [[] m'|e m'|];
    [| |done]; intros [= <-]; simpl.
  - split.
    + rewrite outstanding_released. simpl. rewrite Hlive. unfold held. simpl.
      destruct (mb_empty new_block), (mb_empty (block_ (this σ))); simpl;
        try done; rewrite ?decide_True by done; try done.
      case_decide as Heq; [by injection Heq as ->|].
      by rewrite decide_True.
    + intros Hsound. apply log_sound_released; [done|]. simpl. rewrite Hlive.
      unfold held. intros ->. destruct (mb_empty new_block); simpl.
      * left.
      * right. left.
  - split.
    + rewrite outstanding_released. simpl. rewrite Hlive.
      destruct (mb_empty new_block); simpl; [done|].
      by rewrite decide_True.
    + intros Hsound. apply log_sound_released; [done|]. simpl. rewrite Hlive.
      intros ->. left.
Qed.

Lemma resize_to_ledger target constructed σ σ' rest :
  allocate_contract →
  outstanding (calls (env σ)) = held (this σ) ++ rest →
  final_state (resize_to target constructed σ) = Some σ' →
  outstanding (calls (env σ')) = held (this σ') ++ rest
  ∧ (log_sound (calls (env σ)) = true → log_sound (calls (env σ')) = true).
Proof.
  intros Halloc Hlive. rewrite resize_to_eq. simpl.
  destruct (N.eqb_spec target 0) as [|Hnz].
  - by apply change_block_ledger.
  - destruct (Heap_allocate _ _ _ _) as [[e|new_block] hs'] eqn:Hheap; simpl.
    + intros [= <-]. simpl. by rewrite outstanding_snoc, log_sound_allocate.
    + apply Halloc in Hheap.
      assert (Hne : mb_empty new_block = false)
        by (apply N.eqb_neq; lia).
      intros Hrun. eapply change_block_ledger in Hrun as [Hlive' Hsound'].
      * split; [exact Hlive'|]. simpl in Hsound'.
        by rewrite log_sound_allocate in Hsound'.
      * simpl. by rewrite outstanding_snoc, Hne, Hlive.
Qed.

Lemma resize_eq r σ :
  resize r σ
  = match r with
    | Reserve n v =>
        match growth_size (mb_size (block_ (this σ))) n
                (Heap_max_size (stored_argument (this σ)) (heap (env σ))) with
        | inl e => Throws e σ
        | inr new_size => resize_to new_size v σ
        end
    | ShrinkToFit v =>
        resize_to (shrink_size (mb_size (block_ (this σ)))
                               (size_mul (count v) sizeof)) v σ
    end.
Proof. destruct r; simpl; [apply reserve_eq | apply shrink_to_fit_eq]. Qed.

Lemma resize_ledger r σ σ' rest :
  allocate_contract →
  outstanding (calls (env σ)) = held (this σ) ++ rest →
  final_state (resize r σ) = Some σ' →
  outstanding (calls (env σ')) = held (this σ') ++ rest
  ∧ (log_sound (calls (env σ)) = true → log_sound (calls (env σ')) = true).
Proof.
  intros Halloc Hlive. rewrite resize_eq. destruct r as [n v|v].
  - destruct (growth_size _ _ _) as [e|new_size].
    + by intros [= <-].
    + by apply resize_to_ledger.
  - by apply resize_to_ledger.
Qed.

Lemma run_resizes_ledger rs : ∀ σ σ' rest,
  allocate_contract →
  outstanding (calls (env σ)) = held (this σ) ++ rest →
  run_resizes rs σ = Some σ' →
  outstanding (calls (env σ')) = held (this σ') ++ rest
  ∧ (log_sound (calls (env σ)) = true → log_sound (calls (env σ')) = true).
Proof.
  induction rs as [|r rs IH]; intros σ σ' rest Halloc Hlive; simpl.
  - by intros [= <-].
  - destruct (final_state (resize r σ)) as [σ1|] eqn:Hstep; [|done].
    destruct (resize_ledger _ _ _ _ Halloc Hlive Hstep) as [Hlive1 Hsound1].
    intros Hrest. destruct (IH _ _ _ Halloc Hlive1 Hrest) as [? Hsound'].
    split; [done|]. intros ?. by apply Hsound', Hsound1.
Qed.

Lemma destroy_eq σ :
  destroy σ
  = Returns tt (set_env (released (stored_argument (this σ))
                                  (block_ (this σ)) (env σ)) σ).
Proof. unfold destroy. unfold mbind, M_bind, gets. apply deallocate_block_eq. Qed.

Lemma destroy_ledger σ σ' rest :
  outstanding (calls (env σ)) = held (this σ) ++ rest →
  destroy σ = Returns tt σ' →
  outstanding (calls (env σ')) = rest
  ∧ (log_sound (calls (env σ)) = true → log_sound (calls (env σ')) = true).
Proof.
  intros Hlive. rewrite destroy_eq. intros [= <-]. simpl. split.
  - rewrite outstanding_released, Hlive. unfold held.
    destruct (mb_empty (block_ (this σ))); simpl; [done|].
    by rewrite decide_True.
  - intros Hsound. apply log_sound_released; [done|]. rewrite Hlive.
    unfold held. intros ->. left.
Qed.

(** X9. No leak over the life of an object.  From its construction on,
    through any calls of [reserve] and [shrink_to_fit], returning or
    raising, the blocks outstanding at the Heap are those of before the
    construction and the block the object holds; after the destructor they
    are those of before the construction.  The Heap is one whose blocks are
    as large as asked for. *)
Theorem lifetime_balanced arg w obj w0 rs σ σ' :
  allocate_contract →
  construct arg w = Returns obj w0 →
  run_resizes rs {| this := obj; env := w0 |} = Some σ →
  destroy σ = Returns tt σ' →
  outstanding (calls (env σ)) = held (this σ) ++ outstanding (calls w)
  ∧ outstanding (calls (env σ')) = outstanding (calls w).
Proof.
  intros Halloc [= <- <-] Hrun Hdestroy.
  apply run_resizes_ledger with (rest := outstanding (calls w)) in Hrun
    as [Hlive _]; [|done..].
  split; [done|]. by eapply destroy_ledger in Hdestroy as [? _].
Qed.

(** X10. No deallocation of a block that the Heap does not show as
    outstanding: when every deallocation in the log was of an outstanding
    block before an object is constructed, it is so through any calls of
    [reserve] and [shrink_to_fit] on the object and after its destructor. *)
Theorem lifetime_deallocations_sound arg w obj w0 rs σ σ' :
  allocate_contract →
  log_sound (calls w) = true →
  construct arg w = Returns obj w0 →
  run_resizes rs {| this := obj; env := w0 |} = Some σ →
  destroy σ = Returns tt σ' →
  log_sound (calls (env σ)) = true ∧ log_sound (calls (env σ')) = true.
Proof.
  intros Halloc Hsound [= <- <-] Hrun Hdestroy.
  apply run_resizes_ledger with (rest := outstanding (calls w)) in Hrun
    as [Hlive Hsound1]; [|done..].
  specialize (Hsound1 Hsound). split; [done|].
  eapply destroy_ledger in Hdestroy as [_ Hsound2]; [|done]. by apply Hsound2.
Qed.

(** X11. The handle is the one given to the constructor for the life of the
    object: [argument()] returns it after any calls of [reserve] and
    [shrink_to_fit], returning or raising. *)
Theorem argument_stable arg w obj w0 rs σ :
  construct arg w = Returns obj w0 →
  run_resizes rs {| this := obj; env := w0 |} = Some σ →
  argument σ = Returns arg σ.
Proof.
  intros [= <- <-]. unfold argument, gets.
  cut (∀ σ0, run_resizes rs σ0 = Some σ →
             stored_argument (this σ) = stored_argument (this σ0)).
  { intros Hkeep Hrun. by rewrite (Hkeep _ Hrun). }
  induction rs as [|r rs IH]; intros σ0; simpl.
  - by intros [= <-].
  - destruct (final_state (resize r σ0)) as [σ1|] eqn:Hstep; [|done].
    intros Hrest%IH. by rewrite Hrest, (resize_argument _ _ _ Hstep).
Qed.

(** ** The calls a resize makes *)

Lemma released_calls h b w :
  ∃ new,
    calls (released h b w) = calls w ++ new
    ∧ Forall (λ c, call_handle c = h ∧ ∀ low high, allocation_within low high c)
             new.
Proof.
  unfold released. destruct (mb_empty b).
  - exists []. by rewrite app_nil_r.
  - eexists. split; [done|]. by repeat constructor.
Qed.

Lemma resize_to_calls target constructed σ σ' :
  final_state (resize_to target constructed σ) = Some σ' →
  ∃ new,
    calls (env σ') = calls (env σ) ++ new
    ∧ Forall (λ c, call_handle c = stored_argument (this σ)
                   ∧ allocation_within target target c) new.
Proof.
  rewrite resize_to_eq. simpl.
  assert (Hchange : ∀ new_block σ0,
    final_state (change_block constructed new_block σ0) = Some σ' →
    ∃ new,
      calls (env σ') = calls (env σ0) ++ new
      ∧ Forall (λ c, call_handle c = stored_argument (this σ0)
                     ∧ allocation_within target target c) new).
  { intros new_block σ0. rewrite change_block_eq. simpl.
    destruct (uninitialized_destructive_move _ _ _) as [[] m'|e m'|];
      [| |done]; intros [= <-]; simpl.
    - destruct (released_calls (stored_argument (this σ0)) (block_ (this σ0))
                  (set_objects m' (env σ0))) as (new & -> & Hnew).
      exists new. split; [done|].
      eapply Forall_impl; [exact Hnew|]. by intros c [? ?].
    - destruct (released_calls (stored_argument (this σ0)) new_block
                  (set_objects m' (env σ0))) as (new & -> & Hnew).
      exists new. split; [done|].
      eapply Forall_impl; [exact Hnew|]. by intros c [? ?]. }
  destruct (N.eqb_spec target 0) as [|Hnz]; [apply Hchange|].
  destruct (Heap_allocate _ _ _ _) as [[e|new_block] hs']; simpl.
  - intros [= <-]. eexists. split; [done|]. simpl.
    by repeat constructor.
  - intros (new & -> & Hnew)%Hchange. simpl in *.
    eexists. split; [by rewrite <-app_assoc|].
    constructor; [|done]. by repeat split.
Qed.

(** X12. Every call that [reserve], [shrink_to_fit] and the destructor make
    on the Heap, returning or raising, is made through the handle of the
    object: a block is given back through the handle it was obtained
    through. *)
Theorem calls_through_own_handle r σ :
  (∀ σ', final_state (resize r σ) = Some σ' →
         ∃ new,
           calls (env σ') = calls (env σ) ++ new
           ∧ Forall (λ c, call_handle c = stored_argument (this σ)) new)
  ∧ (∀ σ', destroy σ = Returns tt σ' →
           ∃ new,
             calls (env σ') = calls (env σ) ++ new
             ∧ Forall (λ c, call_handle c = stored_argument (this σ)) new).
Proof.
  split; intros σ'.
  - rewrite resize_eq.
    assert (Hresize : ∀ target v,
      final_state (resize_to target v σ) = Some σ' →
      ∃ new,
        calls (env σ') = calls (env σ) ++ new
        ∧ Forall (λ c, call_handle c = stored_argument (this σ)) new).
    { intros target v (new & -> & Hnew)%resize_to_calls.
      exists new. split; [done|].
      eapply Forall_impl; [exact Hnew|]. by intros c [? ?]. }
    destruct r as [n v|v]; [|apply Hresize].
    destruct (growth_size _ _ _) as [e|new_size]; [|apply Hresize].
    intros [= <-]. exists []. by rewrite app_nil_r.
  - rewrite destroy_eq. intros [= <-]. simpl.
    destruct (released_calls (stored_argument (this σ)) (block_ (this σ))
                (env σ)) as (new & -> & Hnew).
    exists new. split; [done|].
    eapply Forall_impl; [exact Hnew|]. by intros c [? ?].
Qed.

(** X13. With a growth policy that meets its contract, an allocation that
    [reserve] asks of the Heap, whether the call then returns or raises, is
    of at least the size of the block held and the requested bytes, of at
    most what [Heap::max_size] gives for the handle, and aligned for the
    element type. *)
Theorem reserve_requests_bounded min_additional_bytes constructed σ σ' :
  growth_size_contract →
  final_state (reserve min_additional_bytes constructed σ) = Some σ' →
  ∃ new,
    calls (env σ') = calls (env σ) ++ new
    ∧ Forall (allocation_within
                (mb_size (block_ (this σ)) + min_additional_bytes)
                (Heap_max_size (stored_argument (this σ)) (heap (env σ))))
             new.
Proof.
  intros Hgrowth. rewrite reserve_eq.
  destruct (growth_size _ _ _) as [e|new_size] eqn:Hgrow.
  - intros [= <-]. exists []. by rewrite app_nil_r.
  - apply Hgrowth in Hgrow as [Hlow Hhigh].
    intros (new & -> & Hnew)%resize_to_calls. exists new. split; [done|].
    eapply Forall_impl; [exact Hnew|]. intros [h size al res|h b]; simpl;
      [|done]. intros (_ & ? & ? & ?). repeat split; [lia..|done].
Qed.

(** X14. A resize or the destruction of one object leaves the ownership of
    another: an object whose handle and block are not both those of the
    object acted on still owns its block afterwards. *)
Theorem other_object_keeps_ownership (other : @block_storage_heap H) r σ :
  owns other (calls (env σ)) →
  (stored_argument other, block_ other)
    ≠ (stored_argument (this σ), block_ (this σ)) →
  (∀ σ', final_state (resize r σ) = Some σ' → owns other (calls (env σ')))
  ∧ (∀ σ', destroy σ = Returns tt σ' → owns other (calls (env σ'))).
Proof.
  intros Howns Hne.
  assert (Hreleased : ∀ w,
    owns other (calls w) →
    owns other (calls (released (stored_argument (this σ))
                                (block_ (this σ)) w))).
  { intros w Hw Hnonempty. rewrite outstanding_released.
    destruct (mb_empty (block_ (this σ))); [by apply Hw|].
    apply elem_of_remove_one_ne; [by apply Hw | done]. }
  assert (Hresize : ∀ target v σ',
    final_state (resize_to target v σ) = Some σ' →
    owns other (calls (env σ'))).
  { intros target v σ'. rewrite resize_to_eq. simpl.
    destruct (target =? 0).
    - rewrite change_block_eq. simpl.
      destruct (uninitialized_destructive_move _ _ _) as [[] m'|e m'|];
        [| |done]; intros [= <-]; simpl; [|done].
      by apply (Hreleased (set_objects m' (env σ))).
    - destruct (Heap_allocate _ _ _ _) as [[e|new_block] hs']; simpl.
      + intros [= <-]. intros Hnonempty. simpl.
        rewrite outstanding_snoc. by apply Howns.
      + rewrite change_block_eq. simpl.
        destruct (uninitialized_destructive_move _ _ _) as [[] m'|e m'|];
          [| |done]; intros [= <-]; simpl.
        * apply (Hreleased (set_objects m' _)). simpl. intros Hnonempty.
          rewrite outstanding_snoc. right. by apply Howns.
        * intros Hnonempty. rewrite outstanding_released. simpl.
          rewrite outstanding_snoc. simpl.
          destruct (mb_empty new_block).
          -- right. by apply Howns.
          -- rewrite decide_True by done. by apply Howns. }
  split; intros σ'.
  - rewrite resize_eq. destruct r as [n v|v]; [|apply Hresize].
    destruct (growth_size _ _ _) as [e|new_size]; [|apply Hresize].
    by intros [= <-].
  - rewrite destroy_eq. intros [= <-]. simpl. by apply Hreleased.
Qed.

End properties.

(** * The properties on the examples *)

(** ** The instances meet the contracts *)

Lemma round_up_ge granule n : 0 < granule → n ≤ round_up granule n.
Proof.
  intros Hpos. unfold round_up.
  pose proof (N.div_mod (n + granule - 1) granule) as Hdiv.
  pose proof (N.mod_lt (n + granule - 1) granule) as Hmod. nia.
Qed.

Lemma round_up_1 n : round_up 1 n = n.
Proof. unfold round_up. rewrite N.div_1_r. lia. Qed.

Lemma doubling_growth_size_contract : @growth_size_contract doubling.
Proof.
  intros old additional max n. simpl. unfold doubling_growth_size.
  destruct (N.ltb_spec max (old + additional)); [done|].
  intros [= <-]. lia.
Qed.

Lemma tight_shrink_size_stable : @shrink_size_stable doubling.
Proof. done. Qed.

Lemma bump_allocate_inv granule h size alignment s b s' :
  bump_allocate granule h size alignment s = (inr b, s') →
  mb_begin b = round_up (N.max 1 alignment) (next_address s)
  ∧ mb_size b = round_up granule size.
Proof.
  unfold bump_allocate.
  destruct (failing_in s) as [[|k]|]; [done| |]; by intros [= <- <-].
Qed.

Lemma bump_allocate_contract granule :
  0 < granule → @allocate_contract (bump_heap granule).
Proof.
  intros Hpos h size alignment s b s' Hheap.
  apply (bump_allocate_inv granule h size alignment s b s') in Hheap
    as [_ ->].
  by apply round_up_ge.
Qed.

Lemma bump_allocate_exact : @allocate_exact (bump_heap 1).
Proof.
  intros h size alignment s b s' Hheap.
  apply (bump_allocate_inv 1 h size alignment s b s') in Hheap as [_ ->].
  apply round_up_1.
Qed.

(** The bump allocator hands out storage past its mark only. *)
Lemma bump_allocates_fresh granule (σ : @state (bump_heap granule) N) :
  mb_begin (block_ (this σ)) + mb_size (block_ (this σ))
    ≤ next_address (heap (env σ)) →
  allocates_fresh σ.
Proof.
  intros Hmark size alignment b s' Hheap.
  apply (bump_allocate_inv granule (stored_argument (this σ)) size alignment
           (heap (env σ)) b s') in Hheap
    as [Hbegin _].
  right.
  rewrite Hbegin.
  pose proof (round_up_ge (N.max 1 alignment) (next_address (heap (env σ)))).
  lia.
Qed.

(** ** The scenario of the specification *)

(** An object is constructed on handle 7 and reserves 64 bytes for no
    element: one block of 64 bytes is allocated and adopted. *)
Example scenario_first_reserve :
  reserve (G:=doubling) (E:=word) 64 {| base := 0; count := 0 |}
    {| this := bump_object 1 7 empty_block;
       env := bump_world 1 4096 None [] ∅ |}
  = Returns tt
      {| this := bump_object 1 7 example_block;
         env := bump_world 1 4160 None
                  [bump_call_allocate 1 7 64 8 example_block] ∅ |}.
Proof. by vm_compute. Qed.

(** With three elements in the block, 1000 more bytes are reserved: the new
    block has 1064 bytes, the three elements are at its start and the old
    block has been deallocated once. *)
Example scenario_second_reserve :
  reserve (G:=doubling) (E:=word) 1000 example_view (example_state 1 None 20)
  = Returns tt (example_reserved 1)
  ∧ read_view (E:=word) (view_at (block_ (this (example_reserved 1)))
                                 example_view)
              (objects (env (example_reserved 1)))
    = [Some 10; Some 20; Some 30].
Proof. by vm_compute. Qed.

(** The guarantee of a failed relocation is weak on the elements: when the
    second element cannot be moved, the first one has been moved and
    destroyed with the rest of the new block, and two elements are left. *)
Example relocation_failure_loses_moved_elements :
  ∃ σ',
    reserve (G:=doubling) (E:=word) 1000 example_view
      (example_state 1 None poisoned)
    = Throws (ElementTransferFailure poisoned) σ'
    ∧ read_view (E:=word) example_view (objects (env σ'))
      = [None; Some poisoned; Some 30]
    ∧ read_view (E:=word) {| base := 4160; count := 3 |} (objects (env σ'))
      = [None; None; None].
Proof. eexists. split; [vm_compute; reflexivity|]. by vm_compute. Qed.

(** ** The counterexamples *)

(** C6, as stated, fails.  With an allocator that hands out multiples of 16
    bytes and the tight shrink policy, [reserve] and then [shrink_to_fit] of
    three elements of eight bytes return, the shrink target is 24 bytes and
    the block is 32 bytes large. *)
Lemma reserve_then_shrink_to_fit_oversized :
  let σ := example_state 16 None 20 in
  let σ1 := example_reserved 16 in
  let σ2 := example_shrunk 16 in
  let moved := view_at (block_ (this σ1)) example_view in
  reserve (G:=doubling) (E:=word) 1000 example_view σ = Returns tt σ1
  ∧ shrink_to_fit (G:=doubling) (E:=word) moved σ1 = Returns tt σ2
  ∧ shrink_size (GrowthPolicy:=doubling) (mb_size (block_ (this σ1)))
                (size_mul (count example_view) (sizeof (Element:=word))) = 24
  ∧ mb_size (block_ (this σ2)) = 32
  ∧ mb_size (block_ (this σ2))
    ≠ shrink_size (GrowthPolicy:=doubling) (mb_size (block_ (this σ1)))
                  (size_mul (count example_view) (sizeof (Element:=word))).
Proof. by vm_compute. Qed.

(** C7, as stated, fails.  With an allocator that hands out the size asked
    for and the policy that gives back half of the block at most, two calls
    of [shrink_to_fit] in a row return and leave a block of 32 bytes and
    then one of 24 bytes. *)
Lemma shrink_to_fit_twice_differs :
  ∃ σ1 σ2,
    shrink_to_fit (G:=halving) (E:=word) example_view (example_state 1 None 20)
      = Returns tt σ1
    ∧ shrink_to_fit (G:=halving) (E:=word)
        (view_at (block_ (this σ1)) example_view) σ1 = Returns tt σ2
    ∧ mb_size (block_ (this σ1)) = 32
    ∧ mb_size (block_ (this σ2)) = 24
    ∧ mb_size (block_ (this σ2)) ≠ mb_size (block_ (this σ1)).
Proof.
  eexists _, _. split; [vm_compute; reflexivity|].
  split; [vm_compute; reflexivity|]. by vm_compute.
Qed.

(** ** The theorems on the examples *)

Lemma example_view_in_block :
  view_in_block (E:=word) example_view example_block.
Proof. by vm_compute. Qed.

Lemma relocation_failure_rolls_back_witness :
  let σ := example_state 1 None poisoned in
  ∃ σ',
    reserve (G:=doubling) (E:=word) 1000 example_view σ
      = Throws (ElementTransferFailure poisoned) σ'
    ∧ block_ (this σ') = block_ (this σ).
Proof.
  intros σ.
  edestruct (relocation_failure_rolls_back (G:=doubling) (E:=word)
               example_view σ 1064)
    as (σ' & Hreserve & _ & _ & Hblock & _).
  - vm_compute. reflexivity.
  - vm_compute. reflexivity.
  - exists σ'. split; [|exact Hblock]. apply Hreserve. reflexivity.
Defined.

Lemma reserve_postcondition_witness :
  let σ := example_state 1 None 20 in
  let σ' := example_reserved 1 in
  1000 + 3 * 8 ≤ mb_size (block_ (this σ'))
  ∧ read_view (E:=word) (view_at (block_ (this σ')) example_view)
              (objects (env σ'))
    = read_view (E:=word) example_view (objects (env σ))
  ∧ Forall is_Some (read_view (E:=word) example_view (objects (env σ)))
  ∧ Forall (eq None) (read_view (E:=word) example_view (objects (env σ'))).
Proof.
  apply (reserve_postcondition (G:=doubling) (E:=word) 1000 example_view
           (example_state 1 None 20) (example_reserved 1)).
  - exact doubling_growth_size_contract.
  - apply bump_allocate_contract. reflexivity.
  - apply bump_allocates_fresh. by vm_compute.
  - exact example_view_in_block.
  - vm_compute. reflexivity.
Defined.

Lemma reserve_allocation_failure_witness :
  let σ := example_state 1 (Some O) 20 in
  ∃ σ',
    reserve (G:=doubling) (E:=word) 1000 example_view σ
      = Throws AllocationFailure σ'
    ∧ this σ' = this σ
    ∧ objects (env σ') = objects (env σ).
Proof.
  intros σ.
  edestruct (reserve_allocation_failure (G:=doubling) (E:=word) 1000
               example_view σ 1064 AllocationFailure)
    as (σ' & Hreserve & Hthis & Hobjects & _).
  - reflexivity.
  - discriminate.
  - vm_compute. reflexivity.
  - by exists σ'.
Defined.

Lemma reserve_capacity_exceeded_witness :
  let σ := example_state 1 None 20 in
  reserve (G:=doubling) (E:=word) (2 ^ 20) example_view σ
  = Throws CapacityExceeded σ.
Proof.
  apply (reserve_capacity_exceeded (G:=doubling) (E:=word)). reflexivity.
Defined.

Lemma reserve_then_shrink_to_fit_witness :
  let σ := example_state 1 None 20 in
  let σ1 := example_reserved 1 in
  let σ2 := example_shrunk 1 in
  mb_size (block_ (this σ2))
  = shrink_size (GrowthPolicy:=doubling) (mb_size (block_ (this σ1)))
                (size_mul (count example_view) (sizeof (Element:=word)))
  ∧ read_view (E:=word) (view_at (block_ (this σ2)) example_view)
              (objects (env σ2))
    = read_view (E:=word) example_view (objects (env σ)).
Proof.
  intros σ σ1 σ2.
  destruct (reserve_then_shrink_to_fit (G:=doubling) (E:=word) 1000
              example_view σ σ1 σ2)
    as (_ & _ & _ & Hexact & Hread & _).
  - apply bump_allocate_contract. reflexivity.
  - apply bump_allocates_fresh. by vm_compute.
  - apply bump_allocates_fresh. by vm_compute.
  - exact example_view_in_block.
  - vm_compute. reflexivity.
  - vm_compute. reflexivity.
  - split; [exact (Hexact bump_allocate_exact) | exact Hread].
Defined.

Lemma shrink_to_fit_twice_witness :
  let σ1 := example_reserved 1 in
  let σ2 := example_shrunk 1 in
  ∃ σ3,
    shrink_to_fit (G:=doubling) (E:=word)
      (view_at (block_ (this σ2)) example_view) σ2 = Returns tt σ3
    ∧ mb_size (block_ (this σ3)) = mb_size (block_ (this σ2)).
Proof.
  intros σ1 σ2. eexists. split; [vm_compute; reflexivity|].
  apply (shrink_to_fit_twice (G:=doubling) (E:=word)
           (view_at (block_ (this σ1)) example_view)
           (view_at (block_ (this σ2)) example_view) σ1 σ2).
  - exact bump_allocate_exact.
  - exact tight_shrink_size_stable.
  - reflexivity.
  - vm_compute. reflexivity.
  - vm_compute. reflexivity.
Defined.

Lemma ownership_invariant_witness :
  let σ' := example_reserved 1 in
  owns (this σ') (calls (env σ')).
Proof.
  apply (proj1 (proj2 (ownership_invariant (G:=doubling) (E:=word)))
           1000 example_view (example_state 1 None 20) (example_reserved 1)).
  - intros _. apply list_elem_of_here.
  - vm_compute. reflexivity.
Defined.

Lemma heap_calls_well_formed_witness :
  ∃ new,
    calls (env (example_shrunk 1))
    = calls (env (example_state 1 None 20)) ++ new
    ∧ forallb call_ok new = true.
Proof.
  apply (proj1 (heap_calls_well_formed (G:=doubling) (E:=word))
           [OpReserve (this (example_state 1 None 20)) 1000 example_view;
            OpShrinkToFit (this (example_reserved 1))
              (view_at (block_ (this (example_reserved 1))) example_view)]
           (env (example_state 1 None 20)) (env (example_shrunk 1))).
  vm_compute. reflexivity.
Defined.

(** ** The further properties on the examples *)

Lemma tight_shrink_size_contract : @shrink_size_contract doubling.
Proof. by intros old live. Qed.

Lemma resize_returns_trace_witness :
  let σ := example_state 1 None 20 in
  let σ' := example_reserved 1 in
  ∃ target new_block,
    growth_size (GrowthPolicy:=doubling) (mb_size (block_ (this σ))) 1000
                (Heap_max_size (stored_argument (this σ)) (heap (env σ)))
    = inr target
    ∧ this σ' = {| stored_argument := stored_argument (this σ);
                   block_ := new_block |}
    ∧ (target = 0 → new_block = empty_block)
    ∧ calls (env σ')
      = calls (env σ)
        ++ (if target =? 0 then []
            else [CallAllocate (stored_argument (this σ)) target
                               (alignof (Element:=word)) (inr new_block)])
        ++ (if mb_empty (block_ (this σ)) then []
            else [CallDeallocate (stored_argument (this σ))
                                 (block_ (this σ))]).
Proof.
  apply (proj1 (resize_returns_trace (G:=doubling) (E:=word))
           1000 example_view (example_state 1 None 20) (example_reserved 1)).
  vm_compute. reflexivity.
Defined.

Lemma resize_throws_object_unchanged_witness :
  ∃ σ',
    resize (G:=doubling) (E:=word) (Reserve 1000 example_view)
      (example_state 1 None poisoned)
    = Throws (ElementTransferFailure poisoned) σ'
    ∧ this σ' = this (example_state 1 None poisoned).
Proof.
  eexists. split; [vm_compute; reflexivity|].
  eapply (resize_throws_object_unchanged (G:=doubling) (E:=word)
            (Reserve 1000 example_view) (example_state 1 None poisoned)).
  vm_compute. reflexivity.
Defined.

Lemma shrink_to_fit_allocation_failure_witness :
  let σ := example_state 1 (Some O) 20 in
  ∃ σ',
    shrink_to_fit (G:=doubling) (E:=word) example_view σ
    = Throws AllocationFailure σ'
    ∧ this σ' = this σ
    ∧ objects (env σ') = objects (env σ).
Proof.
  intros σ.
  edestruct (shrink_to_fit_allocation_failure (G:=doubling) (E:=word)
               example_view σ AllocationFailure)
    as (σ' & Hshrink & Hthis & Hobjects & _).
  - discriminate.
  - vm_compute. reflexivity.
  - by exists σ'.
Defined.

Lemma reserve_grows_block_witness :
  let σ := example_state 1 None 20 in
  let σ' := example_reserved 1 in
  mb_size (block_ (this σ)) + 1000 ≤ mb_size (block_ (this σ'))
  ∧ mb_size (block_ (this σ')) ≤ 2 ^ 20.
Proof.
  intros σ σ'.
  destruct (reserve_grows_block (G:=doubling) (E:=word) 1000 example_view
              σ σ' (2 ^ 20)) as [Hlow Hhigh].
  - exact doubling_growth_size_contract.
  - apply bump_allocate_contract. reflexivity.
  - vm_compute. reflexivity.
  - vm_compute. reflexivity.
  - split; [exact Hlow | exact (Hhigh bump_allocate_exact)].
Defined.

Lemma reserve_all_grows_witness :
  let σ := example_state 1 None 20 in
  let rs := [(1000, example_view);
             (100, view_at (block_ (this (example_reserved 1))) example_view)]
  in
  ∃ σ',
    reserve_all (G:=doubling) (E:=word) rs σ = Returns tt σ'
    ∧ mb_size (block_ (this σ)) + requested rs ≤ mb_size (block_ (this σ')).
Proof.
  intros σ rs. eexists. split; [vm_compute; reflexivity|].
  apply (reserve_all_grows (G:=doubling) (E:=word) rs σ).
  - exact doubling_growth_size_contract.
  - apply bump_allocate_contract. reflexivity.
  - vm_compute. reflexivity.
Defined.

Lemma shrink_to_fit_room_witness :
  size_mul (count example_view) (sizeof (Element:=word))
  ≤ mb_size (block_ (this (example_shrunk 1))).
Proof.
  apply (shrink_to_fit_room (G:=doubling) (E:=word)
           (view_at (block_ (this (example_reserved 1))) example_view)
           (example_reserved 1) (example_shrunk 1)).
  - exact tight_shrink_size_contract.
  - apply bump_allocate_contract. reflexivity.
  - vm_compute. reflexivity.
Defined.

Lemma shrink_to_fit_empty_releases_witness :
  let σ := example_state 1 None 20 in
  ∃ σ',
    shrink_to_fit (G:=doubling) (E:=word) empty_view σ = Returns tt σ'
    ∧ block_ (this σ') = empty_block
    ∧ objects (env σ') = objects (env σ)
    ∧ calls (env σ')
      = calls (env σ) ++ [CallDeallocate (stored_argument (this σ))
                                         (block_ (this σ))].
Proof.
  intros σ.
  edestruct (shrink_to_fit_empty_releases (G:=doubling) (E:=word)
               empty_view σ) as (σ' & Hshrink & Hthis & Hobjects & Hcalls).
  - reflexivity.
  - reflexivity.
  - exists σ'. split; [exact Hshrink|]. split; [by rewrite Hthis|].
    split; [exact Hobjects | exact Hcalls].
Defined.

Lemma lifetime_balanced_witness :
  let rs := [Reserve 64 empty_view; ShrinkToFit empty_view;
             Reserve 8 empty_view] in
  ∃ σ σ',
    run_resizes (G:=doubling) (E:=word) rs
      {| this := bump_object 1 7 empty_block; env := example_new_world |}
    = Some σ
    ∧ destroy σ = Returns tt σ'
    ∧ outstanding (calls (env σ)) = held (this σ)
    ∧ outstanding (calls (env σ')) = [].
Proof.
  intros rs. eexists _, _.
  split; [vm_compute; reflexivity|]. split; [vm_compute; reflexivity|].
  eapply (lifetime_balanced (H:=bump_heap 1) (G:=doubling) (E:=word) 7
            example_new_world _ _ rs).
  - apply bump_allocate_contract. reflexivity.
  - reflexivity.
  - vm_compute. reflexivity.
  - vm_compute. reflexivity.
Defined.

Lemma lifetime_deallocations_sound_witness :
  let rs := [Reserve 64 empty_view; ShrinkToFit empty_view;
             Reserve 8 empty_view] in
  ∃ σ σ',
    run_resizes (G:=doubling) (E:=word) rs
      {| this := bump_object 1 7 empty_block; env := example_new_world |}
    = Some σ
    ∧ destroy σ = Returns tt σ'
    ∧ log_sound (calls (env σ)) = true
    ∧ log_sound (calls (env σ')) = true.
Proof.
  intros rs. eexists _, _.
  split; [vm_compute; reflexivity|]. split; [vm_compute; reflexivity|].
  eapply (lifetime_deallocations_sound (H:=bump_heap 1) (G:=doubling)
            (E:=word) 7
            example_new_world _ _ rs).
  - apply bump_allocate_contract. reflexivity.
  - reflexivity.
  - reflexivity.
  - vm_compute. reflexivity.
  - vm_compute. reflexivity.
Defined.

Lemma argument_stable_witness :
  let rs := [Reserve 64 empty_view; ShrinkToFit empty_view;
             Reserve (2 ^ 20) empty_view] in
  ∃ σ,
    run_resizes (G:=doubling) (E:=word) rs
      {| this := bump_object 1 7 empty_block; env := example_new_world |}
    = Some σ
    ∧ argument σ = Returns (7 : @handle_type (bump_heap 1)) σ.
Proof.
  intros rs. eexists. split; [vm_compute; reflexivity|].
  eapply (argument_stable (H:=bump_heap 1) (G:=doubling) (E:=word) 7
            example_new_world _ _ rs).
  - reflexivity.
  - vm_compute. reflexivity.
Defined.

Lemma calls_through_own_handle_witness :
  let σ := example_state 1 None poisoned in
  ∃ σ' new,
    final_state (resize (G:=doubling) (E:=word) (Reserve 1000 example_view) σ)
    = Some σ'
    ∧ calls (env σ') = calls (env σ) ++ new
    ∧ Forall (λ c, call_handle c = stored_argument (this σ)) new.
Proof.
  intros σ. eexists.
  edestruct (proj1 (calls_through_own_handle (G:=doubling) (E:=word)
                      (Reserve 1000 example_view) σ))
    as (new & Hcalls & Hnew).
  - vm_compute. reflexivity.
  - exists new. split; [vm_compute; reflexivity|]. by split.
Defined.

Lemma reserve_requests_bounded_witness :
  let σ := example_state 1 (Some O) 20 in
  ∃ σ' new,
    final_state (reserve (G:=doubling) (E:=word) 1000 example_view σ)
    = Some σ'
    ∧ calls (env σ') = calls (env σ) ++ new
    ∧ Forall (allocation_within (E:=word) (64 + 1000) (2 ^ 20)) new.
Proof.
  intros σ. eexists.
  edestruct (reserve_requests_bounded (G:=doubling) (E:=word) 1000
               example_view σ) as (new & Hcalls & Hnew).
  - exact doubling_growth_size_contract.
  - vm_compute. reflexivity.
  - exists new. split; [vm_compute; reflexivity|]. by split.
Defined.

Lemma other_object_keeps_ownership_witness :
  ∃ σ',
    final_state (resize (G:=doubling) (E:=word) (Reserve 1000 example_view)
                   example_shared_state) = Some σ'
    ∧ block_ (this σ') ≠ block_ (this example_shared_state)
    ∧ owns example_neighbour (calls (env σ')).
Proof.
  assert (Howns : owns example_neighbour (calls (env example_shared_state)))
    by (intros _; apply list_elem_of_here).
  assert (Hne : (stored_argument example_neighbour, block_ example_neighbour)
                ≠ (stored_argument (this example_shared_state),
                   block_ (this example_shared_state))) by discriminate.
  eexists. split; [vm_compute; reflexivity|]. split; [by vm_compute|].
  apply (proj1 (other_object_keeps_ownership (G:=doubling) (E:=word)
                  example_neighbour (Reserve 1000 example_view)
                  example_shared_state Howns Hne)).
  vm_compute. reflexivity.
Defined.
